(** * Stroke synchronisation core of the collaborative canvas

    A shallow embedding of [src/components/Canvas.tsx]: the component state
    (the [lines] collection, the [isDrawing] flag, the [lastLineRef] reference
    and the selected colour and thickness), its pointer handlers, the change
    feed callback, the initial load, the flush timer and the clear command.

    JavaScript objects are shared by reference: the stroke created on
    pointer-down is stored in [lastLineRef] and in [lines] at the same time,
    and pointer-move mutates it in place.  The model therefore keeps a heap of
    stroke objects and lets [lines] and [lastLineRef] hold addresses.

    A value that may be [undefined] at run time is an [option]; [None] is
    [undefined].  Coordinates and thickness are JavaScript numbers that the
    component only stores and copies, they are carried as [Z]. *)

From Stdlib Require Import ZArith Ascii String Sorting.Sorted.
From stdpp Require Import base numbers option list strings sorting.

Local Open Scope Z_scope.
Local Open Scope nat_scope.

(** ** Data model *)

Module Point.
Record t := mk { x : option Z; y : option Z }.
End Point.

Module Stroke.
Record t := mk {
  id : option string;
  color : option string;
  thickness : option Z;
  points : list (option Z)   (* flat array for Konva *)
}.
End Stroke.

Module SupabaseStroke.
(** [created_at] is an ISO timestamp string in the source; the component never
    reads it, only the store orders by it, so it is kept as the instant it
    denotes. *)
Record t := mk {
  id : option string;
  color : option string;
  thickness : option Z;
  points : option (list Point.t);   (* JSON from DB *)
  created_at : Z
}.
End SupabaseStroke.

(** The object literal handed to [upsert]. *)
Module UpsertRow.
Record t := mk {
  id : option string;
  color : option string;
  thickness : option Z;
  points : list Point.t
}.
End UpsertRow.

#[global] Instance point_eq_dec : EqDecision Point.t.
Proof. solve_decision. Defined.
#[global] Instance stroke_eq_dec : EqDecision Stroke.t.
Proof. solve_decision. Defined.
#[global] Instance supabase_stroke_eq_dec : EqDecision SupabaseStroke.t.
Proof. solve_decision. Defined.
#[global] Instance upsert_row_eq_dec : EqDecision UpsertRow.t.
Proof. solve_decision. Defined.

#[global] Instance stroke_inhabited : Inhabited Stroke.t :=
  populate (Stroke.mk None None None []).

(** ** Conversions between the two point representations *)

(** [s.points.flatMap(p => [p.x, p.y])] *)
Definition flatPoints (ps : list Point.t) : list (option Z) :=
  flat_map (fun p => [Point.x p; Point.y p]) ps.

(** [arr[i]]: reading past the end of a JavaScript array gives [undefined]. *)
Definition jsIndex (arr : list (option Z)) (i : nat) : option Z :=
  mjoin (arr !! i).

(** The loop
    [for (let i = 0; i < line.points.length; i += 2)
       pointsArray.push({ x: line.points[i], y: line.points[i + 1] })]
    started at index [i]; [fuel] bounds the number of iterations. *)
Fixpoint pointsLoop (fuel : nat) (pts : list (option Z)) (i : nat) : list Point.t :=
  match fuel with
  | O => []
  | S fuel' =>
      if decide (i < length pts)
      then Point.mk (jsIndex pts i) (jsIndex pts (i + 1)) :: pointsLoop fuel' pts (i + 2)
      else []
  end.

(** The loop makes at most [length pts] iterations. *)
Definition pointsArray (pts : list (option Z)) : list Point.t :=
  pointsLoop (length pts) pts 0.

(** The same reconstruction by recursion on the array, two cells at a time. *)
Fixpoint pairUp (pts : list (option Z)) : list Point.t :=
  match pts with
  | [] => []
  | [a] => [Point.mk a None]
  | a :: b :: rest => Point.mk a b :: pairUp rest
  end.

(** The indices the loop reads when it runs over an array of length [n]. *)
Definition loopIndex (n i : nat) : Prop := i < n /\ Nat.Even i.

Definition evenLength (pts : list (option Z)) : Prop := Nat.Even (length pts).

(** ** Abrupt completion

    Calling a method on [undefined] raises a [TypeError]; the handler that
    does so stops there and none of its later statements run. *)

Inductive JsError := TypeError.

Inductive Completion (A : Type) :=
| Normal (a : A)
| Throw (e : JsError).
Arguments Normal {A} a.
Arguments Throw {A} e.

Definition bindC {A B} (c : Completion A) (k : A -> Completion B) : Completion B :=
  match c with
  | Normal a => k a
  | Throw e => Throw e
  end.

Notation "'do!' x <- c ; k" := (bindC c (fun x => k))
  (at level 10, x name, c at level 100, k at level 200).

(** [data.map(f)] for an [f] that may throw: the first exception aborts. *)
Fixpoint mapC {A B} (f : A -> Completion B) (l : list A) : Completion (list B) :=
  match l with
  | [] => Normal []
  | a :: l' => do! b <- f a; do! bs <- mapC f l'; Normal (b :: bs)
  end.

(** ** Effects a handler can have on the outside world *)

Inductive Effect :=
| NetSelectAll                      (* .select("*").order("created_at", ascending) *)
| NetUpsert (row : UpsertRow.t)     (* .upsert([row]) *)
| NetDeleteNeq (sentinel : string)  (* .delete().neq("id", sentinel) *)
| ConsoleWarn (msg : string).       (* a message shown or logged to the user *)

(** What an awaited store call resolves to. *)
Inductive Response :=
| Resolved
| TransportError.

Definition isUpsert (e : Effect) : bool :=
  match e with NetUpsert _ => true | _ => false end.

Definition isWarn (e : Effect) : bool :=
  match e with ConsoleWarn _ => true | _ => false end.

(** ** Component state *)

Record State := mkState {
  heap : list Stroke.t;          (* the stroke objects allocated so far *)
  lines : list nat;              (* useState<Stroke[]>: addresses into the heap *)
  isDrawing : bool;
  color : string;
  thickness : Z;
  lastLineRef : option nat       (* useRef<Stroke | null> *)
}.

Definition init : State :=
  mkState [] [] false "#ff0000"%string 4%Z None.

Definition deref (st : State) (a : nat) : Stroke.t := heap st !!! a.

(** What the renderer is given: the objects [lines] refers to, in order. *)
Definition snapshot (st : State) : list Stroke.t := deref st <$> lines st.

Definition setLines (f : list nat -> list nat) (st : State) : State :=
  mkState (heap st) (f (lines st)) (isDrawing st) (color st) (thickness st) (lastLineRef st).

Definition setIsDrawing (b : bool) (st : State) : State :=
  mkState (heap st) (lines st) b (color st) (thickness st) (lastLineRef st).

Definition setColor (c : string) (st : State) : State :=
  mkState (heap st) (lines st) (isDrawing st) c (thickness st) (lastLineRef st).

Definition setThickness (t : Z) (st : State) : State :=
  mkState (heap st) (lines st) (isDrawing st) (color st) t (lastLineRef st).

Definition setLastLineRef (r : option nat) (st : State) : State :=
  mkState (heap st) (lines st) (isDrawing st) (color st) (thickness st) r.

(** Allocation of a new object: it gets the next free address. *)
Definition alloc (s : Stroke.t) (st : State) : nat * State :=
  (length (heap st),
   mkState (heap st ++ [s]) (lines st) (isDrawing st) (color st) (thickness st) (lastLineRef st)).

(** In-place update of the object at address [a]. *)
Definition mutate (a : nat) (f : Stroke.t -> Stroke.t) (st : State) : State :=
  mkState (alter f a (heap st)) (lines st) (isDrawing st) (color st) (thickness st) (lastLineRef st).

Definition concatPoints (extra : list (option Z)) (s : Stroke.t) : Stroke.t :=
  Stroke.mk (Stroke.id s) (Stroke.color s) (Stroke.thickness s) (Stroke.points s ++ extra).

(** [prev.slice(0, -1)] *)
Definition sliceInit (prev : list nat) : list nat := take (length prev - 1) prev.

(** ** Initial load: [fetchStrokes] *)

(** The body of [data.map(s => ({ ... }))] and of the feed callback's object
    literal.  [s.points.flatMap] throws when [s.points] is [undefined]. *)
Definition formatStroke (s : SupabaseStroke.t) : Completion Stroke.t :=
  match SupabaseStroke.points s with
  | None => Throw TypeError
  | Some ps =>
      Normal (Stroke.mk (SupabaseStroke.id s) (SupabaseStroke.color s)
                        (SupabaseStroke.thickness s) (flatPoints ps))
  end.

(** Up to the [await]: the query is issued. *)
Definition fetchStrokes_issue : list Effect := [NetSelectAll].

(** [setLines(formatted)]: the formatted strokes are new objects. *)
Definition replaceAll (formatted : list Stroke.t) (st : State) : State :=
  mkState (heap st ++ formatted) (seq (length (heap st)) (length formatted))
          (isDrawing st) (color st) (thickness st) (lastLineRef st).

(** After the [await]: [data] is [null] when the query failed. *)
Definition fetchStrokes_resume (data : option (list SupabaseStroke.t)) (st : State)
  : Completion State :=
  match data with
  | None => Normal st
  | Some rows => do! formatted <- mapC formatStroke rows; Normal (replaceAll formatted st)
  end.

(** ** Change feed: the [postgres_changes] INSERT callback *)

(** [prev.some(l => l.id === stroke.id)] *)
Definition someId (st : State) (i : option string) : bool :=
  existsb (fun a => bool_decide (Stroke.id (deref st a) = i)) (lines st).

(** The updater passed to [setLines]; the stroke becomes reachable, and is
    given an address, only when it is appended. *)
Definition mergeRemote (stroke : Stroke.t) (st : State) : State :=
  if someId st (Stroke.id stroke) then st
  else let '(a, st1) := alloc stroke st in setLines (fun prev => prev ++ [a]) st1.

Definition onInsert (payload : SupabaseStroke.t) (st : State) : Completion State :=
  do! stroke <- formatStroke payload; Normal (mergeRemote stroke st).

(** ** Upstream pushes *)

Definition upsertRowOf (line : Stroke.t) : UpsertRow.t :=
  UpsertRow.mk (Stroke.id line) (Stroke.color line) (Stroke.thickness line)
               (pointsArray (Stroke.points line)).

(** One tick of the 100 ms interval; the interval exists while [isDrawing]. *)
Definition flushTick (st : State) : list Effect :=
  if isDrawing st then
    match lastLineRef st with
    | None => []
    | Some a => [NetUpsert (upsertRowOf (deref st a))]
    end
  else [].

(** ** Pointer handlers

    [pos] is the result of [getPointerPosition], [null] when the stage has no
    pointer position; [uuid] is the result of [uuidv4()]. *)

Definition handlePointerDown (pos : option (Z * Z)) (uuid : string) (st : State) : State :=
  match pos with
  | None => st
  | Some (px, py) =>
      let newLine :=
        Stroke.mk (Some uuid) (Some (color st)) (Some (thickness st)) [Some px; Some py] in
      let '(a, st1) := alloc newLine st in
      setIsDrawing true (setLines (fun prev => prev ++ [a]) (setLastLineRef (Some a) st1))
  end.

Definition handlePointerMove (pos : option (Z * Z)) (st : State) : State :=
  if negb (isDrawing st) then st
  else match lastLineRef st with
       | None => st
       | Some a =>
           match pos with
           | None => st
           | Some (px, py) =>
               setLines (fun prev => sliceInit prev ++ [a])
                        (mutate a (concatPoints [Some px; Some py]) st)
           end
       end.

(** [handlePointerUp] up to its [await]. *)
Definition handlePointerUp_issue (st : State) : State * list Effect :=
  let st1 := setIsDrawing false st in
  match lastLineRef st1 with
  | None => (st1, [])
  | Some a => (st1, [NetUpsert (upsertRowOf (deref st1 a))])
  end.

(** [handlePointerUp] after its [await]; the response is not looked at. *)
Definition handlePointerUp_resume (r : Response) (st : State) : State * list Effect :=
  (setLastLineRef None st, []).

(** [handlePointerUp] run to completion with nothing in between; the handler
    is suspended at the [await] only when it got that far. *)
Definition handlePointerUp (r : Response) (st : State) : State * list Effect :=
  let '(st1, out1) := handlePointerUp_issue st in
  match lastLineRef st with
  | None => (st1, out1)
  | Some _ => let '(st2, out2) := handlePointerUp_resume r st1 in (st2, out1 ++ out2)
  end.

(** ** Clear command *)

Definition sentinel : string := "00000000-0000-0000-0000-000000000000"%string.

(** [clearCanvas] up to its [await]; nothing follows the [await]. *)
Definition clearCanvas (st : State) : State * list Effect :=
  (setLines (fun _ => []) st, [NetDeleteNeq sentinel]).

(** ** The component as an event-driven machine

    Everything runs on the event loop: a handler runs from its start to its
    first [await] (or to its end) without interruption, and the part after an
    [await] is an event of its own. *)

Inductive Event :=
| EvPointerDown (pos : option (Z * Z)) (uuid : string)
| EvPointerMove (pos : option (Z * Z))
| EvPointerUp
| EvPointerUpSettled (r : Response)
| EvFeedInsert (payload : SupabaseStroke.t)
| EvMount
| EvLoaded (data : option (list SupabaseStroke.t))
| EvClear
| EvTick
| EvSetColor (c : string)
| EvSetThickness (t : Z).

Definition handle (ev : Event) (st : State) : Completion (State * list Effect) :=
  match ev with
  | EvPointerDown pos uuid => Normal (handlePointerDown pos uuid st, [])
  | EvPointerMove pos => Normal (handlePointerMove pos st, [])
  | EvPointerUp => Normal (handlePointerUp_issue st)
  | EvPointerUpSettled r => Normal (handlePointerUp_resume r st)
  | EvFeedInsert payload => do! st' <- onInsert payload st; Normal (st', [])
  | EvMount => Normal (st, fetchStrokes_issue)
  | EvLoaded data => do! st' <- fetchStrokes_resume data st; Normal (st', [])
  | EvClear => Normal (clearCanvas st)
  | EvTick => Normal (st, flushTick st)
  | EvSetColor c => Normal (setColor c st, [])
  | EvSetThickness t => Normal (setThickness t st, [])
  end.

(** An exception leaves the state as the handler found it: every handler that
    can throw does so before its first state update. *)
Definition step (ev : Event) (st : State) : State :=
  match handle ev st with
  | Normal (st', _) => st'
  | Throw _ => st
  end.

Definition effects (ev : Event) (st : State) : list Effect :=
  match handle ev st with
  | Normal (_, out) => out
  | Throw _ => []
  end.

Definition run (evs : list Event) (st : State) : State :=
  foldl (fun s ev => step ev s) st evs.

Definition reachable (st : State) : Prop := exists evs, run evs init = st.

(** ** Observations used in the statements *)

Definition ids (l : list Stroke.t) : list (option string) := Stroke.id <$> l.

(** Number of entries of the snapshot that carry the id [i]. *)
Definition countId (i : option string) (st : State) : nat :=
  length (filter (fun s => Stroke.id s = i) (snapshot st)).

(** The builder's stroke, when a gesture is in progress. *)
Definition inProgress (st : State) : option Stroke.t := deref st <$> lastLineRef st.

(** Number of points of the builder's stroke, as the upsert would send them. *)
Definition pointCount (st : State) : nat :=
  match inProgress st with
  | None => 0
  | Some line => length (pointsArray (Stroke.points line))
  end.

Definition malformed (p : SupabaseStroke.t) : Prop :=
  SupabaseStroke.id p = None \/ SupabaseStroke.color p = None \/
  SupabaseStroke.thickness p = None \/ SupabaseStroke.points p = None.

(** Addresses held by the state point into the heap. *)
Definition wf (st : State) : Prop :=
  Forall (fun a => a < length (heap st)) (lines st) /\
  (forall a, lastLineRef st = Some a -> a < length (heap st)).

(** Every entry of the collection is an object of the heap that satisfies [P]. *)
Definition linesAll (P : Stroke.t -> Prop) (st : State) : Prop :=
  forall a, a ∈ lines st -> exists s, heap st !! a = Some s /\ P s.

(** Every stroke object has an even number of flat coordinates. *)
Definition heapEven (st : State) : Prop :=
  Forall (fun s => evenLength (Stroke.points s)) (heap st).

(** ** The store collaborator *)

Module Store.

(** Modelled from the spec: the persistent store behind the [supabase] client
    is not part of the repository.  Section 6 of the spec gives it a table
    [strokes] keyed by [id] with a server-assigned [created_at], and the
    operations [selectAll(order_by=created_at asc)] and
    [deleteAll(predicate: id != sentinel)]. *)
Definition Table := list SupabaseStroke.t.

(** Modelled from the spec: the order of [created_at], the server-assigned
    creation time. *)
Definition createdBefore (r1 r2 : SupabaseStroke.t) : Prop :=
  (SupabaseStroke.created_at r1 <= SupabaseStroke.created_at r2)%Z.

#[global] Instance createdBefore_dec : RelDecision createdBefore.
Proof. intros r1 r2. unfold createdBefore. apply _. Defined.

(** Modelled from the spec: [selectAll(order_by=created_at asc)]. *)
Definition selectAll (tbl : Table) : list SupabaseStroke.t :=
  merge_sort createdBefore tbl.

(** Modelled from the spec: the predicate [id != s] of [deleteAll]; as an SQL
    comparison it does not hold of a null id. *)
Definition neq (s : string) (r : SupabaseStroke.t) : bool :=
  match SupabaseStroke.id r with
  | Some i => bool_decide (i <> s)
  | None => false
  end.

(** Modelled from the spec: [deleteAll(predicate: id != sentinel)] removes the
    rows the predicate holds of. *)
Definition deleteNeq (s : string) (tbl : Table) : Table :=
  List.filter (fun r => negb (neq s r)) tbl.

End Store.

(** Modelled from the spec: [uuidv4] comes from the [uuid] package, which is
    not part of the repository.  Of the identifiers it returns the model keeps
    only that they are version-4, i.e. carry the digit 4 at offset 14. *)
Definition uuidv4Shaped (s : string) : Prop := String.get 14 s = Some "4"%char.

Definition clientGenerated (r : SupabaseStroke.t) : Prop :=
  exists i, SupabaseStroke.id r = Some i /\ uuidv4Shaped i.

(** ** Derived runs *)

(** A gesture's pointer-moves, each carrying a position. *)
Definition appendPoints (ps : list (Z * Z)) (st : State) : State :=
  foldl (fun s p => handlePointerMove (Some p) s) st ps.

(** The flat coordinates a sequence of positions contributes. *)
Definition flatCoords (ps : list (Z * Z)) : list (option Z) :=
  flat_map (fun p => [Some (fst p); Some (snd p)]) ps.

(** A sequence of feed notifications. *)
Definition feed (payloads : list SupabaseStroke.t) (st : State) : State :=
  run (EvFeedInsert <$> payloads) st.

(** A rendered stroke agrees with a persisted row on id, colour, thickness and
    point sequence, its points being the row's in flat interleaved form. *)
Definition matchesRow (row : SupabaseStroke.t) (s : Stroke.t) : Prop :=
  Stroke.id s = SupabaseStroke.id row /\
  Stroke.color s = SupabaseStroke.color row /\
  Stroke.thickness s = SupabaseStroke.thickness row /\
  (exists ps, SupabaseStroke.points row = Some ps /\
              Stroke.points s = flatPoints ps /\
              pointsArray (Stroke.points s) = ps).

(** ** Sample sessions *)

Module Sample.

Definition idA : string := "9b1deb4d-3b7d-4bad-9bdd-2b0d7b3dcb6d"%string.
Definition idB : string := "1b9d6bcd-bbfd-4b2d-9b5d-ab8dfbbd4bed"%string.

Definition pt (px py : Z) : Point.t := Point.mk (Some px) (Some py).

(** A stroke another client has inserted. *)
Definition remoteB : SupabaseStroke.t :=
  SupabaseStroke.mk (Some idB) (Some "#0000ff"%string) (Some 2%Z)
                    (Some [pt 5 5; pt 6 7]) 20%Z.

(** The store's notification for this client's own stroke. *)
Definition echoA : SupabaseStroke.t :=
  SupabaseStroke.mk (Some idA) (Some "#ff0000"%string) (Some 4%Z)
                    (Some [pt 0 0; pt 1 1]) 10%Z.

(** A feed event without its [color] field. *)
Definition noColor : SupabaseStroke.t :=
  SupabaseStroke.mk (Some idB) None (Some 2%Z) (Some [pt 5 5; pt 6 7]) 20%Z.

(** A feed event without its [points] field. *)
Definition noPoints : SupabaseStroke.t :=
  SupabaseStroke.mk (Some idB) (Some "#0000ff"%string) (Some 2%Z) None 20%Z.

(** Pointer-down, then one pointer-move. *)
Definition gesture : list Event :=
  [EvPointerDown (Some (0, 0)%Z) idA; EvPointerMove (Some (1, 1)%Z)].

(** The same gesture with another client's stroke arriving between the
    pointer-down and the pointer-move. *)
Definition interleaved : list Event :=
  [EvPointerDown (Some (0, 0)%Z) idA; EvFeedInsert remoteB; EvPointerMove (Some (1, 1)%Z)].

(** The interleaved gesture, released, followed by the echo of the stroke. *)
Definition interleavedThenEcho : list Event :=
  interleaved ++ [EvPointerUp; EvPointerUpSettled Resolved; EvFeedInsert echoA].

Definition drawing : State := run gesture init.

Definition strokeA : Stroke.t :=
  Stroke.mk (Some idA) (Some "#ff0000"%string) (Some 4%Z)
            [Some 0%Z; Some 0%Z; Some 1%Z; Some 1%Z].

End Sample.

(** ** Further observations *)

(** A position as the [{x, y}] record the upsert sends for it. *)
Definition toPoint (p : Z * Z) : Point.t := Point.mk (Some (fst p)) (Some (snd p)).

(** The stroke pointer-down creates at [p] under the id [uuid]. *)
Definition newLineAt (p : Z * Z) (uuid : string) (c : string) (t : Z) : Stroke.t :=
  Stroke.mk (Some uuid) (Some c) (Some t) [Some (fst p); Some (snd p)].

(** A stroke as pointer-down and pointer-move build it: every field is
    defined, and the flat array holds at least one complete pair of defined
    coordinates. *)
Definition locallyAuthored (s : Stroke.t) : Prop :=
  is_Some (Stroke.id s) /\ is_Some (Stroke.color s) /\ is_Some (Stroke.thickness s) /\
  Forall is_Some (Stroke.points s) /\ evenLength (Stroke.points s) /\
  2 <= length (Stroke.points s).

(** The object [lastLineRef] refers to, if any, is locally authored. *)
Definition builderLocal (st : State) : Prop :=
  forall a, lastLineRef st = Some a ->
    exists s, heap st !! a = Some s /\ locallyAuthored s.

(** An upsert object that lacks nothing: id, colour and thickness are
    defined, there is at least one point, and no coordinate is [undefined]. *)
Definition wellFormedRow (row : UpsertRow.t) : Prop :=
  is_Some (UpsertRow.id row) /\ is_Some (UpsertRow.color row) /\
  is_Some (UpsertRow.thickness row) /\ UpsertRow.points row <> [] /\
  Forall (fun p => is_Some (Point.x p) /\ is_Some (Point.y p)) (UpsertRow.points row).

(** Modelled from the spec: the store is not part of the repository.  It keeps
    an upserted object as a row with the same [id], [color], [thickness] and
    [points] plus a server-assigned [created_at], and hands that row to the
    feed and to later loads (spec, section 6). *)
Definition persistedRow (t : Z) (row : UpsertRow.t) : SupabaseStroke.t :=
  SupabaseStroke.mk (UpsertRow.id row) (UpsertRow.color row) (UpsertRow.thickness row)
                    (Some (UpsertRow.points row)) t.

(** A new gesture begun while the previous pointer-up is still awaiting its
    upsert, followed by the resolution of that upsert. *)
Definition downBeforeSettled (r : Response) (p : Z * Z) (uuid : string) (st : State) : State :=
  fst (handlePointerUp_resume r
         (handlePointerDown (Some p) uuid (fst (handlePointerUp_issue st)))).

(** The circumstances under which an event cannot bring a second entry with
    an id the collection already has: pointer-down gets an id the collection
    does not hold, pointer-move finds the stroke in progress as the last
    entry, and a load response has no id twice. *)
Definition keepsIdsApart (ev : Event) (st : State) : Prop :=
  match ev with
  | EvPointerDown (Some _) uuid => someId st (Some uuid) = false
  | EvPointerMove (Some _) =>
      isDrawing st = true ->
      forall a, lastLineRef st = Some a -> last (lines st) = Some a
  | EvLoaded (Some rows) => NoDup (SupabaseStroke.id <$> rows)
  | _ => True
  end.

(** The events that can still arrive once a gesture is over: pointer-moves,
    further releases and their settlements, and ticks of the flush timer. *)
Definition lateEvent (ev : Event) : bool :=
  match ev with
  | EvPointerMove _ | EvPointerUp | EvPointerUpSettled _ | EvTick => true
  | _ => false
  end.

(** Everything a sequence of events sends or logs, in order. *)
Fixpoint trace (evs : list Event) (st : State) : list Effect :=
  match evs with
  | [] => []
  | ev :: evs' => effects ev st ++ trace evs' (step ev st)
  end.

(** * Properties *)

(** ** The two point representations *)

Section Conversions.

Implicit Types (pts : list (option Z)) (ps : list Point.t).

Lemma jsIndex_drop pts i : jsIndex pts i = mjoin (head (drop i pts)).
Proof.
  unfold jsIndex. f_equal.
  rewrite <- (Nat.add_0_r i) at 1. rewrite <- lookup_drop.
  by destruct (drop i pts).
Qed.

Lemma pairUp_drop_step pts i :
  i < length pts ->
  pairUp (drop i pts) =
  Point.mk (jsIndex pts i) (jsIndex pts (i + 1)) :: pairUp (drop (i + 2) pts).
Proof.
  intros Hi. rewrite !jsIndex_drop.
  rewrite <- !drop_drop.
  assert (Hlen : length (drop i pts) = length pts - i) by apply length_drop.
  destruct (drop i pts) as [|a [|b rest]] eqn:E; simpl in *; [lia|done|done].
Qed.

(** The index loop computes the structural pairing of what is left of the
    array, as soon as the fuel covers the remaining cells. *)
Lemma pointsLoop_pairUp fuel : forall pts i,
  length pts - i <= fuel -> pointsLoop fuel pts i = pairUp (drop i pts).
Proof.
  induction fuel as [|fuel IH]; intros pts i Hfuel; simpl.
  - rewrite drop_ge by lia. done.
  - destruct (decide (i < length pts)) as [Hi|Hi].
    + rewrite pairUp_drop_step by done. f_equal. apply IH. lia.
    + rewrite drop_ge by lia. done.
Qed.

Lemma pointsArray_pairUp pts : pointsArray pts = pairUp pts.
Proof. unfold pointsArray. rewrite pointsLoop_pairUp by lia. done. Qed.

Lemma pairUp_flatPoints ps : pairUp (flatPoints ps) = ps.
Proof.
  induction ps as [|[px py] ps IH]; simpl; [done|]. by rewrite IH.
Qed.

Lemma evenLength_nil : evenLength [].
Proof. exists 0. done. Qed.

Lemma evenLength_cons2 a b pts : evenLength (a :: b :: pts) <-> evenLength pts.
Proof.
  unfold evenLength. simpl. split; intros [k Hk].
  - exists (k - 1). lia.
  - exists (S k). lia.
Qed.

Lemma evenLength_app pts1 pts2 :
  evenLength pts1 -> evenLength pts2 -> evenLength (pts1 ++ pts2).
Proof.
  unfold evenLength. intros [k1 H1] [k2 H2]. rewrite length_app.
  exists (k1 + k2). lia.
Qed.

Lemma evenLength_flatPoints ps : evenLength (flatPoints ps).
Proof.
  induction ps as [|p ps IH]; simpl; [apply evenLength_nil|].
  by apply evenLength_cons2.
Qed.

(** Induction two cells at a time. *)
Lemma even_list_ind (P : list (option Z) -> Prop) :
  P [] ->
  (forall a b pts, evenLength pts -> P pts -> P (a :: b :: pts)) ->
  forall pts, evenLength pts -> P pts.
Proof.
  intros Hnil Hstep pts.
  remember (length pts) as n eqn:Hn. revert pts Hn.
  induction n as [n IH] using lt_wf_ind. intros pts Hn Hev.
  destruct pts as [|a [|b pts]].
  - done.
  - destruct Hev as [k Hk]. simpl in Hk. lia.
  - apply evenLength_cons2 in Hev as Hev'.
    apply Hstep; [done|]. apply (IH (length pts)); simpl in *; [lia|done|done].
Qed.

Lemma flatPoints_pairUp pts : evenLength pts -> flatPoints (pairUp pts) = pts.
Proof.
  revert pts. apply even_list_ind; [done|].
  intros a b pts _ IH. simpl. by rewrite IH.
Qed.

Lemma loopIndex_in_bounds pts i :
  evenLength pts -> loopIndex (length pts) i -> i + 1 < length pts.
Proof.
  unfold evenLength, loopIndex. intros [k Hk] [Hlt [j Hj]]. lia.
Qed.

(** On an even array every record of the reconstruction is read from two
    cells that exist: record [j] from the cells [2 * j] and [2 * j + 1]. *)
Lemma pairUp_lookup_even pts :
  evenLength pts ->
  forall j p, pairUp pts !! j = Some p ->
    pts !! (2 * j) = Some (Point.x p) /\ pts !! (2 * j + 1) = Some (Point.y p).
Proof.
  revert pts. apply (even_list_ind (fun pts => forall j p, pairUp pts !! j = Some p ->
    pts !! (2 * j) = Some (Point.x p) /\ pts !! (2 * j + 1) = Some (Point.y p))).
  - intros j p Hj. by destruct j.
  - intros a b pts _ IH [|j] p Hj; simpl in Hj.
    + injection Hj as <-. done.
    + replace (2 * S j) with (S (S (2 * j))) by lia. simpl. by apply IH.
Qed.

Lemma length_pairUp pts : length (pairUp pts) = Nat.div2 (S (length pts)).
Proof.
  remember (length pts) as n eqn:Hn. revert pts Hn.
  induction n as [n IH] using lt_wf_ind. intros pts Hn.
  destruct pts as [|a [|b pts]]; simpl in *; subst; try done.
  f_equal. apply (IH (length pts)); [lia|done].
Qed.

Lemma length_pairUp_app2 pts a b :
  length (pairUp (pts ++ [a; b])) = S (length (pairUp pts)).
Proof. rewrite !length_pairUp, length_app. simpl. by rewrite Nat.add_comm. Qed.

End Conversions.

(** ** Invariants of the reachable states *)

Section Invariants.

Implicit Types (st : State) (s : Stroke.t).

Lemma formatStroke_even payload s :
  formatStroke payload = Normal s -> evenLength (Stroke.points s).
Proof.
  unfold formatStroke. destruct (SupabaseStroke.points payload); [|done].
  intros [= <-]. apply evenLength_flatPoints.
Qed.

Lemma mapC_Forall {A B} (f : A -> Completion B) (P : B -> Prop) l bs :
  (forall a b, f a = Normal b -> P b) ->
  mapC f l = Normal bs -> Forall P bs.
Proof.
  intros Hf. revert bs. induction l as [|a l IH]; simpl; intros bs.
  - intros [= <-]. constructor.
  - destruct (f a) as [b|] eqn:Ea; simpl; [|done].
    destruct (mapC f l) as [bs'|]; simpl; [|done].
    intros [= <-]. constructor; eauto.
Qed.

Lemma Forall_lt_weaken (l : list nat) n m :
  n <= m -> Forall (fun a => a < n) l -> Forall (fun a => a < m) l.
Proof. intros Hnm Hl. eapply Forall_impl; [done|]. intros a; simpl. lia. Qed.

Lemma wf_mergeRemote s st : wf st -> wf (mergeRemote s st).
Proof.
  intros Hwf. pose proof Hwf as [Hl Hr]. unfold mergeRemote.
  destruct (someId st (Stroke.id s)); [done|].
  split; simpl.
  - rewrite length_app. simpl. apply Forall_app. split.
    + eapply Forall_lt_weaken; [|done]. lia.
    + repeat constructor. lia.
  - intros a Ha. rewrite length_app. specialize (Hr a Ha). lia.
Qed.

Lemma wf_handlePointerDown pos uuid st : wf st -> wf (handlePointerDown pos uuid st).
Proof.
  intros Hwf. pose proof Hwf as [Hl Hr]. destruct pos as [[px py]|]; [|done].
  split; simpl.
  - rewrite length_app. simpl. apply Forall_app. split.
    + eapply Forall_lt_weaken; [|done]. lia.
    + repeat constructor. lia.
  - intros a [= <-]. rewrite length_app. simpl. lia.
Qed.

Lemma wf_handlePointerMove pos st : wf st -> wf (handlePointerMove pos st).
Proof.
  intros Hwf. pose proof Hwf as [Hl Hr]. unfold handlePointerMove.
  destruct (isDrawing st); simpl; [|done].
  destruct (lastLineRef st) as [a|] eqn:Ea; [|done].
  destruct pos as [[px py]|]; [|done].
  split; simpl; rewrite length_alter.
  - apply Forall_app. split.
    + by apply Forall_take.
    + repeat constructor. by apply Hr.
  - intros b Hb. apply Hr. congruence.
Qed.

Lemma wf_replaceAll formatted st : wf st -> wf (replaceAll formatted st).
Proof.
  intros [Hl Hr]. split; simpl; rewrite length_app.
  - apply Forall_seq. intros j Hj. lia.
  - intros a Ha. specialize (Hr a Ha). lia.
Qed.

Lemma wf_ext st st' :
  heap st' = heap st -> lines st' = lines st -> lastLineRef st' = lastLineRef st ->
  wf st -> wf st'.
Proof. unfold wf. by intros -> -> ->. Qed.

Lemma wf_init : wf init.
Proof. split; simpl; [constructor|done]. Qed.

Lemma wf_step ev st : wf st -> wf (step ev st).
Proof.
  intros Hwf. unfold step, handle.
  destruct ev as [pos uuid|pos| |r|payload| |data| | |c|t]; simpl.
  - by apply wf_handlePointerDown.
  - by apply wf_handlePointerMove.
  - unfold handlePointerUp_issue. simpl.
    destruct (lastLineRef st); by apply (wf_ext st).
  - destruct Hwf as [Hl Hr]. by split.
  - unfold onInsert. destruct (formatStroke payload); simpl; [|done].
    by apply wf_mergeRemote.
  - done.
  - destruct data as [rows|]; simpl; [|done].
    destruct (mapC formatStroke rows); simpl; [|done].
    by apply wf_replaceAll.
  - destruct Hwf as [Hl Hr]. split; simpl; [constructor|done].
  - done.
  - by apply (wf_ext st).
  - by apply (wf_ext st).
Qed.

Lemma heapEven_mergeRemote s st :
  evenLength (Stroke.points s) -> heapEven st -> heapEven (mergeRemote s st).
Proof.
  intros Hs Hev. unfold mergeRemote.
  destruct (someId st (Stroke.id s)); [done|].
  unfold heapEven. simpl. apply Forall_app. split; [done|]. by repeat constructor.
Qed.

Lemma heapEven_handlePointerDown pos uuid st :
  heapEven st -> heapEven (handlePointerDown pos uuid st).
Proof.
  intros Hev. destruct pos as [[px py]|]; [|done].
  unfold heapEven. simpl. apply Forall_app. split; [done|].
  repeat constructor. simpl. apply evenLength_cons2, evenLength_nil.
Qed.

Lemma heapEven_handlePointerMove pos st :
  heapEven st -> heapEven (handlePointerMove pos st).
Proof.
  intros Hev. unfold handlePointerMove.
  destruct (isDrawing st); simpl; [|done].
  destruct (lastLineRef st) as [a|]; [|done].
  destruct pos as [[px py]|]; [|done].
  unfold heapEven. simpl. apply Forall_alter; [done|].
  intros s _ Hs. simpl. apply evenLength_app; [done|].
  apply evenLength_cons2, evenLength_nil.
Qed.

Lemma heapEven_step ev st : heapEven st -> heapEven (step ev st).
Proof.
  intros Hev. unfold step, handle.
  destruct ev as [pos uuid|pos| |r|payload| |data| | |c|t]; simpl; try done.
  - by apply heapEven_handlePointerDown.
  - by apply heapEven_handlePointerMove.
  - unfold handlePointerUp_issue. simpl. by destruct (lastLineRef st).
  - unfold onInsert. destruct (formatStroke payload) as [s|] eqn:Es; simpl; [|done].
    apply heapEven_mergeRemote; [|done]. by eapply formatStroke_even.
  - destruct data as [rows|]; simpl; [|done].
    destruct (mapC formatStroke rows) as [formatted|] eqn:Ef; simpl; [|done].
    unfold heapEven. simpl. apply Forall_app. split; [done|].
    eapply mapC_Forall; [|done]. intros a b. apply formatStroke_even.
Qed.

Lemma run_snoc evs ev st : run (evs ++ [ev]) st = step ev (run evs st).
Proof. unfold run. by rewrite foldl_app. Qed.

(** Induction over the events that led to a state. *)
Lemma reachable_ind (P : State -> Prop) :
  P init ->
  (forall ev st, reachable st -> P st -> P (step ev st)) ->
  forall st, reachable st -> P st.
Proof.
  intros Hinit Hstep st [evs <-].
  induction evs as [|ev evs IH] using rev_ind; [done|].
  rewrite run_snoc. apply Hstep; [by exists evs|done].
Qed.

Lemma reachable_wf st : reachable st -> wf st.
Proof.
  revert st. apply reachable_ind; [apply wf_init|].
  intros ev st _. apply wf_step.
Qed.

Lemma reachable_heapEven st : reachable st -> heapEven st.
Proof.
  revert st. apply reachable_ind; [constructor|].
  intros ev st _. apply heapEven_step.
Qed.

(** Reading any address gives a stroke with an even number of coordinates:
    the addresses in use point into the heap, whose objects are all even. *)
Lemma heapEven_deref st a :
  heapEven st -> a < length (heap st) -> evenLength (Stroke.points (deref st a)).
Proof.
  intros Hev Ha. unfold deref.
  destruct (lookup_lt_is_Some_2 (heap st) a Ha) as [s Hs].
  rewrite (list_lookup_total_correct _ _ _ Hs).
  eapply (Forall_lookup_1 _ _ _ _ Hev Hs).
Qed.

End Invariants.

(** ** Reading the heap *)

Section Heap.

Implicit Types (st : State) (s : Stroke.t).

Lemma deref_alloc s st : deref (snd (alloc s st)) (fst (alloc s st)) = s.
Proof. unfold deref. simpl. by rewrite list_lookup_total_middle. Qed.

Lemma elem_of_snapshot s st :
  s ∈ snapshot st <-> exists a, a ∈ lines st /\ s = deref st a.
Proof.
  unfold snapshot. rewrite list_elem_of_fmap. split.
  - intros (a & -> & Ha). by exists a.
  - intros (a & Ha & ->). by exists a.
Qed.

Lemma someId_true st i :
  someId st i = true <-> exists s, s ∈ snapshot st /\ Stroke.id s = i.
Proof.
  unfold someId. rewrite existsb_exists. split.
  - intros (a & Ha & Hid). apply bool_decide_eq_true in Hid.
    exists (deref st a). split; [|done].
    apply elem_of_snapshot. exists a. by rewrite list_elem_of_In.
  - intros (s & Hs & Hid). apply elem_of_snapshot in Hs as (a & Ha & ->).
    exists a. rewrite <- list_elem_of_In. split; [done|].
    by apply bool_decide_eq_true.
Qed.

Lemma mergeRemote_present s st :
  someId st (Stroke.id s) = true -> mergeRemote s st = st.
Proof. unfold mergeRemote. by intros ->. Qed.

Lemma someId_mergeRemote s st : someId (mergeRemote s st) (Stroke.id s) = true.
Proof.
  unfold mergeRemote. destruct (someId st (Stroke.id s)) eqn:E; [done|].
  apply someId_true. exists s. split; [|done].
  apply elem_of_snapshot. exists (length (heap st)). simpl. split.
  - apply elem_of_app. right. apply list_elem_of_here.
  - symmetry. apply (deref_alloc s st).
Qed.

Lemma mergeRemote_twice s st : mergeRemote s (mergeRemote s st) = mergeRemote s st.
Proof. apply mergeRemote_present, someId_mergeRemote. Qed.

Lemma snapshot_appended (h extra : list Stroke.t) :
  (fun a => (h ++ extra) !!! a) <$> seq (length h) (length extra) = extra.
Proof.
  revert h. induction extra as [|s extra IH]; intros h; simpl; [done|].
  rewrite list_lookup_total_middle by done. f_equal.
  specialize (IH (h ++ [s])). rewrite length_app, <- app_assoc in IH. simpl in IH.
  by rewrite Nat.add_1_r in IH.
Qed.

Lemma snapshot_replaceAll formatted st : snapshot (replaceAll formatted st) = formatted.
Proof. unfold snapshot, deref. simpl. apply snapshot_appended. Qed.

End Heap.

(** ** Claims *)

(** C10: every stroke the renderer or the builder holds in a reachable state
    has an even number of flat coordinates; the loop that rebuilds the
    [{x, y}] records before an upsert therefore reads no cell past the end
    (at each of its indices [i], [i + 1] is still inside the array, and every
    record it builds comes from two cells that exist) and undoes the
    flattening, and flattening undoes the loop.  Pointer-down creates the
    builder's stroke with one coordinate pair. *)
Theorem C10_even_points_and_reconstruction st s :
  reachable st ->
  s ∈ snapshot st \/ inProgress st = Some s ->
  evenLength (Stroke.points s) /\
  (forall i, loopIndex (length (Stroke.points s)) i -> i + 1 < length (Stroke.points s)) /\
  (forall j p, pointsArray (Stroke.points s) !! j = Some p ->
     Stroke.points s !! (2 * j) = Some (Point.x p) /\
     Stroke.points s !! (2 * j + 1) = Some (Point.y p)) /\
  flatPoints (pointsArray (Stroke.points s)) = Stroke.points s /\
  (forall ps, pointsArray (flatPoints ps) = ps) /\
  (forall px py uuid,
     Stroke.points <$> inProgress (handlePointerDown (Some (px, py)) uuid st)
     = Some [Some px; Some py]).
Proof.
  intros Hreach Hs.
  assert (Hev : evenLength (Stroke.points s)).
  { pose proof (reachable_wf st Hreach) as [Hl Hr].
    pose proof (reachable_heapEven st Hreach) as Hheap.
    destruct Hs as [Hs|Hs].
    - apply elem_of_snapshot in Hs as (a & Ha & ->).
      apply heapEven_deref; [done|].
      by apply (proj1 (Forall_forall _ _) Hl).
    - unfold inProgress in Hs. destruct (lastLineRef st) as [a|] eqn:Ea; [|done].
      injection Hs as <-. apply heapEven_deref; [done|]. by apply Hr. }
  split; [done|]. split; [|split; [|split; [|split]]].
  - intros i. by apply loopIndex_in_bounds.
  - rewrite pointsArray_pairUp. by apply pairUp_lookup_even.
  - rewrite pointsArray_pairUp. by apply flatPoints_pairUp.
  - intros ps. rewrite pointsArray_pairUp. apply pairUp_flatPoints.
  - intros px py uuid. unfold inProgress, deref. simpl.
    by rewrite list_lookup_total_middle.
Qed.

Lemma C10_witness :
  evenLength (Stroke.points Sample.strokeA) /\
  (forall i, loopIndex (length (Stroke.points Sample.strokeA)) i ->
             i + 1 < length (Stroke.points Sample.strokeA)) /\
  (forall j p, pointsArray (Stroke.points Sample.strokeA) !! j = Some p ->
     Stroke.points Sample.strokeA !! (2 * j) = Some (Point.x p) /\
     Stroke.points Sample.strokeA !! (2 * j + 1) = Some (Point.y p)) /\
  flatPoints (pointsArray (Stroke.points Sample.strokeA)) = Stroke.points Sample.strokeA /\
  (forall ps, pointsArray (flatPoints ps) = ps) /\
  (forall px py uuid,
     Stroke.points <$> inProgress (handlePointerDown (Some (px, py)) uuid Sample.drawing)
     = Some [Some px; Some py]).
Proof.
  apply (C10_even_points_and_reconstruction Sample.drawing Sample.strokeA).
  - exists Sample.gesture. reflexivity.
  - right. reflexivity.
Defined.

(** C3: merging a stroke whose id the collection already holds changes
    nothing, as an updater and as a feed event; merging the same stroke a
    second time is therefore a no-op. *)
Theorem C3_mergeRemote_idempotent st S :
  (exists s, s ∈ snapshot st /\ Stroke.id s = Stroke.id S) ->
  mergeRemote S st = st /\
  snapshot (mergeRemote S st) = snapshot st /\
  mergeRemote S (mergeRemote S st) = mergeRemote S st /\
  (forall payload, formatStroke payload = Normal S ->
                   step (EvFeedInsert payload) st = st /\
                   step (EvFeedInsert payload) (step (EvFeedInsert payload) st) = st).
Proof.
  intros Hpresent. apply someId_true in Hpresent.
  pose proof (mergeRemote_present S st Hpresent) as Hsame.
  split; [done|]. split; [by rewrite Hsame|]. split; [by rewrite !Hsame|].
  intros payload Hfmt.
  assert (Hstep : step (EvFeedInsert payload) st = st).
  { unfold step, handle, onInsert. rewrite Hfmt. simpl. done. }
  by rewrite !Hstep.
Qed.

Lemma C3_witness :
  mergeRemote Sample.strokeA Sample.drawing = Sample.drawing /\
  snapshot (mergeRemote Sample.strokeA Sample.drawing) = snapshot Sample.drawing /\
  mergeRemote Sample.strokeA (mergeRemote Sample.strokeA Sample.drawing)
  = mergeRemote Sample.strokeA Sample.drawing /\
  (forall payload, formatStroke payload = Normal Sample.strokeA ->
     step (EvFeedInsert payload) Sample.drawing = Sample.drawing /\
     step (EvFeedInsert payload) (step (EvFeedInsert payload) Sample.drawing)
     = Sample.drawing).
Proof.
  apply (C3_mergeRemote_idempotent Sample.drawing Sample.strokeA).
  exists Sample.strokeA. split; [|reflexivity].
  vm_compute. apply list_elem_of_here.
Defined.

(** *** Release *)





(** *** Growth of the builder's stroke *)

Lemma handlePointerMove_idle pos st :
  isDrawing st = false \/ lastLineRef st = None -> handlePointerMove pos st = st.
Proof.
  unfold handlePointerMove. intros [->| ->]; simpl; [done|].
  by destruct (isDrawing st).
Qed.

Lemma handlePointerMove_active st a p :
  isDrawing st = true -> lastLineRef st = Some a -> a < length (heap st) ->
  deref (handlePointerMove (Some p) st) a
  = concatPoints [Some (fst p); Some (snd p)] (deref st a) /\
  isDrawing (handlePointerMove (Some p) st) = true /\
  lastLineRef (handlePointerMove (Some p) st) = Some a /\
  length (heap (handlePointerMove (Some p) st)) = length (heap st).
Proof.
  intros Hd Hr Ha. unfold handlePointerMove. rewrite Hd, Hr. simpl.
  destruct p as [px py]. unfold deref. simpl.
  rewrite length_alter. repeat split; try done.
  destruct (lookup_lt_is_Some_2 (heap st) a Ha) as [s Hs].
  apply list_lookup_total_correct.
  rewrite list_lookup_alter_eq, Hs. simpl.
  by rewrite (list_lookup_total_correct _ _ _ Hs).
Qed.

Lemma appendPoints_active ps : forall st a,
  isDrawing st = true -> lastLineRef st = Some a -> a < length (heap st) ->
  Stroke.points (deref (appendPoints ps st) a)
  = Stroke.points (deref st a) ++ flatCoords ps /\
  isDrawing (appendPoints ps st) = true /\
  lastLineRef (appendPoints ps st) = Some a.
Proof.
  induction ps as [|p ps IH]; intros st a Hd Hr Ha; simpl.
  - by rewrite app_nil_r.
  - destruct (handlePointerMove_active st a p Hd Hr Ha) as (Hp & Hd' & Hr' & Hlen).
    destruct (IH (handlePointerMove (Some p) st) a Hd' Hr') as (Hps & Hd'' & Hr'').
    { by rewrite Hlen. }
    repeat split; try done.
    unfold appendPoints in *. simpl. rewrite Hps, Hp. simpl.
    by rewrite <- app_assoc.
Qed.

Lemma length_pairUp_flatCoords ps : forall pts,
  length (pairUp (pts ++ flatCoords ps)) = length (pairUp pts) + length ps.
Proof.
  induction ps as [|p ps IH]; intros pts; simpl.
  - rewrite app_nil_r. lia.
  - change (pts ++ Some (fst p) :: Some (snd p) :: flatCoords ps)
      with (pts ++ [Some (fst p); Some (snd p)] ++ flatCoords ps).
    rewrite app_assoc, IH, length_pairUp_app2. lia.
Qed.

(** C4: while drawing is active and a stroke is in progress, every
    [appendPoint] (a pointer-move that carries a position) appends exactly
    the two coordinates of its point to the builder's stroke, so that after
    any sequence of them the stroke is the old one followed by the new
    coordinates and the point count has grown by the number of calls; when
    drawing is not active or no stroke is in progress the call returns the
    state it was given. *)
Theorem C4_appendPoint_growth st :
  reachable st ->
  (forall a, isDrawing st = true -> lastLineRef st = Some a ->
     (forall p,
        Stroke.points (deref (handlePointerMove (Some p) st) a)
        = Stroke.points (deref st a) ++ [Some (fst p); Some (snd p)] /\
        pointCount (handlePointerMove (Some p) st) = S (pointCount st)) /\
     (forall ps,
        Stroke.points (deref (appendPoints ps st) a)
        = Stroke.points (deref st a) ++ flatCoords ps /\
        pointCount (appendPoints ps st) = pointCount st + length ps /\
        isDrawing (appendPoints ps st) = true /\
        lastLineRef (appendPoints ps st) = Some a)) /\
  (isDrawing st = false \/ lastLineRef st = None ->
   forall pos, handlePointerMove pos st = st).
Proof.
  intros Hreach. split; [|intros Hidle pos; by apply handlePointerMove_idle].
  intros a Hd Hr.
  assert (Ha : a < length (heap st)) by (by apply (reachable_wf st Hreach)).
  assert (Hseq : forall ps,
     Stroke.points (deref (appendPoints ps st) a)
     = Stroke.points (deref st a) ++ flatCoords ps /\
     pointCount (appendPoints ps st) = pointCount st + length ps /\
     isDrawing (appendPoints ps st) = true /\
     lastLineRef (appendPoints ps st) = Some a).
  { intros ps.
    destruct (appendPoints_active ps st a Hd Hr Ha) as (Hps & Hd' & Hr').
    repeat split; try done.
    unfold pointCount, inProgress. rewrite Hr', Hr. simpl.
    rewrite Hps, !pointsArray_pairUp. apply length_pairUp_flatCoords. }
  split; [|done].
  intros p. destruct (Hseq [p]) as (Hp & Hc & _). simpl in Hp, Hc.
  split; [done|]. unfold appendPoints in Hc. simpl in Hc. lia.
Qed.

Lemma C4_witness :
  pointCount (appendPoints [(2, 2)%Z; (3, 5)%Z] Sample.drawing)
  = pointCount Sample.drawing + 2.
Proof.
  assert (Hreach : reachable Sample.drawing) by (exists Sample.gesture; reflexivity).
  destruct (C4_appendPoint_growth Sample.drawing Hreach) as [Hactive _].
  destruct (Hactive 0 eq_refl eq_refl) as [_ Hseq].
  apply (Hseq [(2, 2)%Z; (3, 5)%Z]).
Defined.

(** *** Initial load *)

#[local] Instance createdBefore_total : Total Store.createdBefore.
Proof. intros r1 r2. unfold Store.createdBefore. lia. Qed.

#[local] Instance createdBefore_trans : Transitive Store.createdBefore.
Proof. intros r1 r2 r3. unfold Store.createdBefore. lia. Qed.

Lemma formatStroke_matches row ps :
  SupabaseStroke.points row = Some ps ->
  exists s, formatStroke row = Normal s /\ matchesRow row s.
Proof.
  intros Hps. unfold formatStroke. rewrite Hps. eexists. split; [done|].
  unfold matchesRow. simpl. repeat split; try done.
  exists ps. repeat split; try done.
  rewrite pointsArray_pairUp. apply pairUp_flatPoints.
Qed.

Lemma mapC_formatStroke rows :
  (forall r, r ∈ rows -> is_Some (SupabaseStroke.points r)) ->
  exists formatted,
    mapC formatStroke rows = Normal formatted /\ Forall2 matchesRow rows formatted.
Proof.
  induction rows as [|row rows IH]; intros Hall; simpl.
  - exists []. split; [done|constructor].
  - destruct (Hall row) as [ps Hps]; [apply list_elem_of_here|].
    destruct (formatStroke_matches row ps Hps) as (s & -> & Hs).
    destruct IH as (formatted & -> & Hf).
    { intros r Hr. apply Hall. by apply list_elem_of_further. }
    exists (s :: formatted). split; [done|]. by constructor.
Qed.

(** C5: when the store answers the initial query with its rows ordered by
    creation time, the load replaces the collection by one stroke per row, in
    that order; each stroke has its row's id, colour and thickness, and its
    points are the row's [{x, y}] records in flat interleaved form (from which
    the records are recovered).  The rows are the persisted ones, none lost
    and none added, in ascending order of [created_at]. *)
Theorem C5_initial_load_round_trip st tbl :
  (forall r, r ∈ tbl -> is_Some (SupabaseStroke.points r)) ->
  exists st',
    fetchStrokes_resume (Some (Store.selectAll tbl)) st = Normal st' /\
    Forall2 matchesRow (Store.selectAll tbl) (snapshot st') /\
    StronglySorted Store.createdBefore (Store.selectAll tbl) /\
    Store.selectAll tbl ≡ₚ tbl.
Proof.
  intros Hall.
  destruct (mapC_formatStroke (Store.selectAll tbl)) as (formatted & Hmap & Hf).
  { intros r Hr. apply Hall.
    unfold Store.selectAll in Hr. by rewrite merge_sort_Permutation in Hr. }
  exists (replaceAll formatted st). simpl. rewrite Hmap. simpl.
  rewrite snapshot_replaceAll. repeat split; try done.
  - apply StronglySorted_merge_sort; apply _.
  - apply merge_sort_Permutation.
Qed.

Lemma C5_witness :
  exists st',
    fetchStrokes_resume (Some (Store.selectAll [Sample.remoteB; Sample.echoA])) init
    = Normal st' /\
    Forall2 matchesRow (Store.selectAll [Sample.remoteB; Sample.echoA]) (snapshot st') /\
    StronglySorted Store.createdBefore (Store.selectAll [Sample.remoteB; Sample.echoA]) /\
    Store.selectAll [Sample.remoteB; Sample.echoA] ≡ₚ [Sample.remoteB; Sample.echoA].
Proof.
  apply (C5_initial_load_round_trip init [Sample.remoteB; Sample.echoA]).
  intros r Hr. apply elem_of_cons in Hr as [->|Hr]; [by eexists|].
  apply elem_of_cons in Hr as [->|Hr]; [by eexists|].
  by apply elem_of_nil in Hr.
Defined.

(** *** Clear *)

Lemma uuidv4Shaped_not_sentinel i : uuidv4Shaped i -> i <> sentinel.
Proof. unfold uuidv4Shaped. intros Hi ->. vm_compute in Hi. congruence. Qed.

Lemma deleteNeq_spec s tbl r :
  r ∈ Store.deleteNeq s tbl <->
  r ∈ tbl /\ ~ (exists i, SupabaseStroke.id r = Some i /\ i <> s).
Proof.
  unfold Store.deleteNeq. rewrite !list_elem_of_In, filter_In.
  unfold Store.neq. split.
  - intros [Hr Hkeep]. split; [done|]. intros (i & Hi & Hne).
    rewrite Hi in Hkeep. by rewrite bool_decide_eq_true_2 in Hkeep.
  - intros [Hr Hkeep]. split; [done|].
    destruct (SupabaseStroke.id r) as [i|]; [|done].
    apply negb_true_iff, bool_decide_eq_false. intros Hne. apply Hkeep. by exists i.
Qed.

Lemma deleteNeq_clientGenerated tbl :
  (forall r, r ∈ tbl -> clientGenerated r) -> Store.deleteNeq sentinel tbl = [].
Proof.
  intros Hall. destruct (Store.deleteNeq sentinel tbl) as [|r rest] eqn:E; [done|].
  assert (Hr : r ∈ Store.deleteNeq sentinel tbl) by (rewrite E; apply list_elem_of_here).
  apply deleteNeq_spec in Hr as [Hr Hkeep]. exfalso. apply Hkeep.
  destruct (Hall r Hr) as (i & Hi & Hshape). exists i. split; [done|].
  by apply uuidv4Shaped_not_sentinel.
Qed.

Lemma linesAll_mergeRemote (P : Stroke.t -> Prop) s st :
  P s -> linesAll P st -> linesAll P (mergeRemote s st).
Proof.
  intros Hs Hall. unfold mergeRemote.
  destruct (someId st (Stroke.id s)); [done|].
  intros a Ha. simpl in *. apply elem_of_app in Ha as [Ha|Ha].
  - destruct (Hall a Ha) as (s' & Hs' & HP). exists s'. split; [|done].
    by apply lookup_app_l_Some.
  - apply list_elem_of_singleton in Ha as ->. exists s. split; [|done].
    by apply list_lookup_middle.
Qed.

Lemma linesAll_feed (P : Stroke.t -> Prop) payloads : forall st,
  (forall p s, p ∈ payloads -> formatStroke p = Normal s -> P s) ->
  linesAll P st -> linesAll P (feed payloads st).
Proof.
  induction payloads as [|p payloads IH]; intros st HP Hall; [done|].
  unfold feed in *. simpl. apply IH.
  - intros p' s Hp'. apply HP. by apply list_elem_of_further.
  - unfold step, handle, onInsert.
    destruct (formatStroke p) as [s|] eqn:Es; simpl; [|done].
    apply linesAll_mergeRemote; [|done]. eapply HP; [apply list_elem_of_here|done].
Qed.

Lemma linesAll_snapshot (P : Stroke.t -> Prop) st s :
  linesAll P st -> s ∈ snapshot st -> P s.
Proof.
  intros Hall Hs. apply elem_of_snapshot in Hs as (a & Ha & ->).
  destruct (Hall a Ha) as (s & Hs & HP).
  unfold deref. by rewrite (list_lookup_total_correct _ _ _ Hs).
Qed.

(** C6: after the clear command the snapshot is empty whatever the collection
    held, and one delete request is sent whose predicate spares only rows
    whose id is the sentinel (or null); since no version-4 identifier equals
    the sentinel, a table of client-generated strokes is emptied.  Feed events
    that arrive afterwards put into the snapshot only strokes they carry. *)
Theorem C6_clear_is_total st tbl payloads :
  (forall r, r ∈ tbl -> clientGenerated r) ->
  snapshot (fst (clearCanvas st)) = [] /\
  snd (clearCanvas st) = [NetDeleteNeq sentinel] /\
  Store.deleteNeq sentinel tbl = [] /\
  (forall tbl' r, r ∈ Store.deleteNeq sentinel tbl' <->
     r ∈ tbl' /\ ~ (exists i, SupabaseStroke.id r = Some i /\ i <> sentinel)) /\
  (forall s, s ∈ snapshot (feed payloads (fst (clearCanvas st))) ->
     exists p, p ∈ payloads /\ formatStroke p = Normal s).
Proof.
  intros Hall. split; [done|]. split; [done|].
  split; [by apply deleteNeq_clientGenerated|].
  split; [intros tbl' r; apply deleteNeq_spec|].
  - intros s.
    apply (linesAll_snapshot (fun s => exists p, p ∈ payloads /\ formatStroke p = Normal s)).
    apply linesAll_feed.
    + intros p s' Hp Hs'. by exists p.
    + intros a Ha. simpl in Ha. by apply elem_of_nil in Ha.
Qed.

Lemma C6_witness :
  snapshot (fst (clearCanvas Sample.drawing)) = [] /\
  snd (clearCanvas Sample.drawing) = [NetDeleteNeq sentinel] /\
  Store.deleteNeq sentinel [Sample.echoA] = [] /\
  (forall tbl' r, r ∈ Store.deleteNeq sentinel tbl' <->
     r ∈ tbl' /\ ~ (exists i, SupabaseStroke.id r = Some i /\ i <> sentinel)) /\
  (forall s, s ∈ snapshot (feed [Sample.remoteB] (fst (clearCanvas Sample.drawing))) ->
     exists p, p ∈ [Sample.remoteB] /\ formatStroke p = Normal s).
Proof.
  apply (C6_clear_is_total Sample.drawing [Sample.echoA] [Sample.remoteB]).
  intros r Hr. apply list_elem_of_singleton in Hr as ->.
  exists Sample.idA. split; reflexivity.
Defined.

(** *** Payloads with missing fields *)

Lemma mapC_throw {A B} (f : A -> Completion B) l a e :
  a ∈ l -> f a = Throw e -> exists e', mapC f l = Throw e'.
Proof.
  intros Ha Hf. induction l as [|b l IH]; [by apply elem_of_nil in Ha|].
  simpl. apply elem_of_cons in Ha as [<-|Ha].
  - rewrite Hf. by exists e.
  - destruct (f b); simpl; [|by eexists].
    destruct (IH Ha) as [e' ->]. by exists e'.
Qed.

Lemma no_handler_warns ev st : filter isWarn (effects ev st) = [].
Proof.
  unfold effects, handle.
  destruct ev as [pos uuid|pos| |r|payload| |data| | |c|t]; simpl; try done.
  - unfold handlePointerUp_issue. by destruct (lastLineRef (setIsDrawing false st)).
  - by destruct (onInsert payload st).
  - by destruct (fetchStrokes_resume data st).
  - unfold flushTick. destruct (isDrawing st); [|done]. by destruct (lastLineRef st).
Qed.

(** C8, as stated, fails: a feed event without its [color] is a malformed
    payload, yet it is appended to the collection and nothing is logged. *)
Lemma C8_counterexample :
  ~ (forall payload st,
       malformed payload ->
       lines (step (EvFeedInsert payload) st) = lines st /\
       exists w, w ∈ effects (EvFeedInsert payload) st /\ isWarn w = true).
Proof.
  intros Hclaim.
  destruct (Hclaim Sample.noColor init) as [Hlines _].
  - right. left. reflexivity.
  - vm_compute in Hlines. discriminate Hlines.
Qed.

(** C8, amended: a feed event whose [points] field is missing, and a load
    response that contains a row whose [points] field is missing, make the
    handler throw a [TypeError] before it touches the collection, so the
    state is left as it was; no handler ever logs a warning.  A feed event
    that has its [points] is never dropped for lacking another field: it is
    merged as the stroke its fields give. *)
Theorem C8_missing_points_leaves_lines st payload rows :
  SupabaseStroke.points payload = None ->
  payload ∈ rows ->
  handle (EvFeedInsert payload) st = Throw TypeError /\
  step (EvFeedInsert payload) st = st /\
  handle (EvLoaded (Some rows)) st = Throw TypeError /\
  step (EvLoaded (Some rows)) st = st /\
  (forall ev st', filter isWarn (effects ev st') = []) /\
  (forall p ps, SupabaseStroke.points p = Some ps ->
     step (EvFeedInsert p) st
     = mergeRemote (Stroke.mk (SupabaseStroke.id p) (SupabaseStroke.color p)
                              (SupabaseStroke.thickness p) (flatPoints ps)) st).
Proof.
  intros Hnone Hin.
  assert (Hfmt : formatStroke payload = Throw TypeError).
  { unfold formatStroke. by rewrite Hnone. }
  assert (Hfeed : handle (EvFeedInsert payload) st = Throw TypeError).
  { unfold handle, onInsert. by rewrite Hfmt. }
  assert (Hload : handle (EvLoaded (Some rows)) st = Throw TypeError).
  { unfold handle, fetchStrokes_resume.
    destruct (mapC_throw formatStroke rows payload TypeError Hin Hfmt) as [[] ->].
    done. }
  split; [done|]. split; [unfold step; by rewrite Hfeed|].
  split; [done|]. split; [unfold step; by rewrite Hload|].
  split; [apply no_handler_warns|].
  intros p ps Hps. unfold step, handle, onInsert, formatStroke. by rewrite Hps.
Qed.

Lemma C8_witness :
  handle (EvFeedInsert Sample.noPoints) Sample.drawing = Throw TypeError /\
  step (EvFeedInsert Sample.noPoints) Sample.drawing = Sample.drawing /\
  handle (EvLoaded (Some [Sample.echoA; Sample.noPoints])) Sample.drawing
  = Throw TypeError /\
  step (EvLoaded (Some [Sample.echoA; Sample.noPoints])) Sample.drawing = Sample.drawing /\
  (forall ev st', filter isWarn (effects ev st') = []) /\
  (forall p ps, SupabaseStroke.points p = Some ps ->
     step (EvFeedInsert p) Sample.drawing
     = mergeRemote (Stroke.mk (SupabaseStroke.id p) (SupabaseStroke.color p)
                              (SupabaseStroke.thickness p) (flatPoints ps))
                   Sample.drawing).
Proof.
  apply (C8_missing_points_leaves_lines Sample.drawing Sample.noPoints
           [Sample.echoA; Sample.noPoints]).
  - reflexivity.
  - apply list_elem_of_further, list_elem_of_here.
Defined.

(** *** The final push *)

(** C9, as stated, fails: with a stroke in progress and a store that answers
    the final push with a transport error, pointer-up makes one upsert
    attempt, not two, and surfaces no warning. *)
Lemma C9_counterexample :
  lastLineRef Sample.drawing = Some 0 /\
  length (filter isUpsert (snd (handlePointerUp TransportError Sample.drawing))) = 1 /\
  filter isWarn (snd (handlePointerUp TransportError Sample.drawing)) = [] /\
  ~ (2 <= length (filter isUpsert (snd (handlePointerUp TransportError Sample.drawing)))).
Proof.
  split; [reflexivity|]. split; [reflexivity|]. split; [reflexivity|].
  vm_compute. lia.
Qed.

(** C9, amended: whatever the store answers, pointer-up with a stroke in
    progress issues exactly one upsert, the one carrying that stroke, and no
    warning; the snapshot is the same before and after, so the stroke stays
    visible locally. *)
Theorem C9_single_push_no_warning st a r :
  lastLineRef st = Some a ->
  snd (handlePointerUp r st) = [NetUpsert (upsertRowOf (deref st a))] /\
  filter isWarn (snd (handlePointerUp r st)) = [] /\
  snapshot (fst (handlePointerUp r st)) = snapshot st /\
  handlePointerUp TransportError st = handlePointerUp Resolved st.
Proof.
  intros Hr. unfold handlePointerUp, handlePointerUp_issue, handlePointerUp_resume.
  destruct st as [h l d c t ref]. simpl in *. subst ref. simpl. done.
Qed.

Lemma C9_witness :
  snd (handlePointerUp TransportError Sample.drawing)
  = [NetUpsert (upsertRowOf (deref Sample.drawing 0))] /\
  filter isWarn (snd (handlePointerUp TransportError Sample.drawing)) = [] /\
  snapshot (fst (handlePointerUp TransportError Sample.drawing)) = snapshot Sample.drawing /\
  handlePointerUp TransportError Sample.drawing = handlePointerUp Resolved Sample.drawing.
Proof.
  apply (C9_single_push_no_warning Sample.drawing 0 TransportError). reflexivity.
Defined.

(** *** Uniqueness of ids *)

Lemma snapshot_mergeRemote_absent s st :
  wf st -> someId st (Stroke.id s) = false ->
  snapshot (mergeRemote s st) = snapshot st ++ [s].
Proof.
  intros [Hl _] Habsent. unfold mergeRemote. rewrite Habsent.
  unfold snapshot, deref. simpl. rewrite fmap_app. simpl.
  rewrite list_lookup_total_middle by done. f_equal.
  apply Forall_fmap_ext_1. eapply Forall_impl; [done|].
  intros a Ha. simpl in *. by rewrite lookup_total_app_l.
Qed.

(** The merge of a feed event keeps the ids of the snapshot pairwise
    distinct. *)
Lemma mergeRemote_keeps_ids_unique s st :
  wf st -> NoDup (ids (snapshot st)) -> NoDup (ids (snapshot (mergeRemote s st))).
Proof.
  intros Hwf Hnd. destruct (someId st (Stroke.id s)) eqn:E.
  - by rewrite mergeRemote_present.
  - rewrite snapshot_mergeRemote_absent by done.
    unfold ids in *. rewrite fmap_app. simpl.
    apply NoDup_app. split; [done|]. split; [|apply NoDup_singleton].
    intros i Hi Hi'. apply list_elem_of_singleton in Hi' as ->.
    apply list_elem_of_fmap in Hi as (s' & Hid & Hs').
    assert (someId st (Stroke.id s) = true) as Hyes; [|congruence].
    apply someId_true. by exists s'.
Qed.

(** So do a load of rows with distinct ids and the clear command. *)
Lemma replaceAll_keeps_ids_unique formatted st :
  NoDup (ids formatted) -> NoDup (ids (snapshot (replaceAll formatted st))).
Proof. by rewrite snapshot_replaceAll. Qed.

Lemma clearCanvas_keeps_ids_unique st : NoDup (ids (snapshot (fst (clearCanvas st)))).
Proof. apply NoDup_nil_2. Qed.

Lemma concatPoints_nil s : concatPoints [] s = s.
Proof. destruct s. unfold concatPoints. simpl. by rewrite app_nil_r. Qed.

Lemma concatPoints_concatPoints extra1 extra2 s :
  concatPoints extra2 (concatPoints extra1 s) = concatPoints (extra1 ++ extra2) s.
Proof. unfold concatPoints. simpl. by rewrite app_assoc. Qed.

(** While nothing but pointer-moves happens, the builder's stroke stays the
    last object of the heap and the last entry of the collection. *)
Lemma appendPoints_uninterrupted ps : forall st h s l,
  heap st = h ++ [s] -> lines st = l ++ [length h] ->
  isDrawing st = true -> lastLineRef st = Some (length h) ->
  heap (appendPoints ps st) = h ++ [concatPoints (flatCoords ps) s] /\
  lines (appendPoints ps st) = l ++ [length h].
Proof.
  induction ps as [|p ps IH]; intros st h s l Hh Hl Hd Hr.
  - simpl. by rewrite concatPoints_nil.
  - assert (Ha : length h < length (heap st)).
    { rewrite Hh, length_app. simpl. lia. }
    destruct (handlePointerMove_active st (length h) p Hd Hr Ha) as (_ & Hd' & Hr' & _).
    change (appendPoints (p :: ps) st) with (appendPoints ps (handlePointerMove (Some p) st)).
    destruct (IH (handlePointerMove (Some p) st) h
                 (concatPoints [Some (fst p); Some (snd p)] s) l) as [Hh' Hl']; try done.
    + unfold handlePointerMove. rewrite Hd, Hr. destruct p as [px py]. simpl.
      rewrite Hh. rewrite <- (Nat.add_0_r (length h)) at 1. by rewrite alter_app_r.
    + unfold handlePointerMove. rewrite Hd, Hr. destruct p as [px py]. simpl.
      rewrite Hl. unfold sliceInit. f_equal.
      apply take_app_length'. rewrite length_app. simpl. lia.
    + split; [|done]. rewrite Hh'. by rewrite concatPoints_concatPoints.
Qed.

Lemma filter_id_absent st i :
  someId st i = false -> filter (fun s => Stroke.id s = i) (snapshot st) = [].
Proof.
  intros Habsent.
  destruct (filter (fun s => Stroke.id s = i) (snapshot st)) as [|s rest] eqn:E; [done|].
  assert (Hs : s ∈ filter (fun s => Stroke.id s = i) (snapshot st)).
  { rewrite E. apply list_elem_of_here. }
  apply list_elem_of_filter in Hs as [Hid Hs].
  assert (someId st i = true) as Hyes; [|congruence].
  apply someId_true. by exists s.
Qed.

(** The property of C2 for a gesture that no other event interrupts: after
    pointer-down with an id the collection does not hold yet and any number of
    pointer-moves, the snapshot is the old one followed by the local stroke,
    which is its only entry with that id, and a feed event for that id is
    ignored. *)
Lemma echo_after_uninterrupted_gesture st uuid p ps S :
  wf st -> someId st (Some uuid) = false -> Stroke.id S = Some uuid ->
  snapshot (appendPoints ps (handlePointerDown (Some p) uuid st))
  = snapshot st ++
    [Stroke.mk (Some uuid) (Some (color st)) (Some (thickness st))
               ([Some (fst p); Some (snd p)] ++ flatCoords ps)] /\
  countId (Some uuid) (appendPoints ps (handlePointerDown (Some p) uuid st)) = 1 /\
  mergeRemote S (appendPoints ps (handlePointerDown (Some p) uuid st))
  = appendPoints ps (handlePointerDown (Some p) uuid st).
Proof.
  intros [Hlines _] Hfresh HS. destruct p as [px py].
  set (st0 := handlePointerDown (Some (px, py)) uuid st).
  set (line := Stroke.mk (Some uuid) (Some (color st)) (Some (thickness st))
                         [Some px; Some py]).
  destruct (appendPoints_uninterrupted ps st0 (heap st) line (lines st))
    as [Hh Hl]; try done.
  assert (Hsnap : snapshot (appendPoints ps st0)
                  = snapshot st ++ [concatPoints (flatCoords ps) line]).
  { unfold snapshot, deref. rewrite Hh, Hl, fmap_app. simpl.
    rewrite list_lookup_total_middle by done. f_equal.
    apply Forall_fmap_ext_1. eapply Forall_impl; [done|].
    intros a Ha. simpl in *. by rewrite lookup_total_app_l. }
  split; [done|]. split.
  - unfold countId. rewrite Hsnap, filter_app, filter_id_absent by done. simpl.
    by rewrite filter_cons_True.
  - apply mergeRemote_present, someId_true.
    exists (concatPoints (flatCoords ps) line). rewrite Hsnap, HS. split; [|done].
    apply elem_of_app. right. apply list_elem_of_here.
Qed.

(** C1, on the code: a stroke of another client that arrives between
    pointer-down and pointer-move is the last entry when the move replaces
    "the last entry" by the builder's stroke; the remote stroke is lost and
    the builder's stroke is listed twice. *)
Theorem C1_duplicate_after_interleaved_insert :
  reachable (run Sample.interleaved init) /\
  ids (snapshot (run Sample.interleaved init)) = [Some Sample.idA; Some Sample.idA] /\
  ~ NoDup (ids (snapshot (run Sample.interleaved init))).
Proof.
  split; [by exists Sample.interleaved|]. split; [reflexivity|].
  intros Hnd. vm_compute in Hnd. apply NoDup_cons in Hnd as [Hnotin _].
  apply Hnotin, list_elem_of_here.
Qed.

(** C2, on the code: after the interleaved gesture the builder's stroke is
    listed twice; the echo of that stroke is ignored by the merge, and the
    snapshot still holds two entries for the id, both with the local
    content. *)
Theorem C2_two_entries_after_echo :
  countId (Some Sample.idA) (run Sample.interleavedThenEcho init) = 2 /\
  snapshot (run Sample.interleavedThenEcho init) = [Sample.strokeA; Sample.strokeA].
Proof. split; reflexivity. Qed.

(** ** Further properties of the conversions *)

Lemma pairUp_app_even pts extra :
  evenLength pts -> pairUp (pts ++ extra) = pairUp pts ++ pairUp extra.
Proof.
  revert pts. apply (even_list_ind (fun pts => pairUp (pts ++ extra) = pairUp pts ++ pairUp extra)).
  - done.
  - intros a b pts _ IH. simpl. by rewrite IH.
Qed.

Lemma pairUp_flatCoords ps : pairUp (flatCoords ps) = toPoint <$> ps.
Proof. induction ps as [|p ps IH]; simpl; [done|]. by rewrite IH. Qed.

(** An array of odd length is an even array followed by one cell. *)
Lemma odd_list_split (pts : list (option Z)) :
  Nat.Odd (length pts) -> exists front a, pts = front ++ [a] /\ evenLength front.
Proof.
  intros [k Hk]. destruct (decide (pts = [])) as [->|Hne]; [simpl in Hk; lia|].
  destruct (exists_last Hne) as (front & a & ->). exists front, a. split; [done|].
  rewrite length_app in Hk. simpl in Hk. exists k. lia.
Qed.

(** X1: the reconstruction loop on an array of odd length.  Its last
    iteration reads one cell past the end: the records are those of the array
    without its last cell, followed by a record whose [x] is that cell and
    whose [y] is [undefined]; flattening the result gives the array followed
    by one [undefined].  In every case the loop builds one record per started
    pair. *)
Theorem X1_pointsArray_odd_length pts :
  Nat.Odd (length pts) ->
  (exists front a,
     pts = front ++ [a] /\
     pointsArray pts = pointsArray front ++ [Point.mk a None]) /\
  flatPoints (pointsArray pts) = pts ++ [None] /\
  length (pointsArray pts) = Nat.div2 (S (length pts)).
Proof.
  intros Hodd. split; [|split].
  - destruct (odd_list_split pts Hodd) as (front & a & -> & Hev).
    exists front, a. split; [done|].
    by rewrite !pointsArray_pairUp, pairUp_app_even.
  - destruct (odd_list_split pts Hodd) as (front & a & -> & Hev).
    rewrite pointsArray_pairUp, pairUp_app_even by done. simpl.
    unfold flatPoints. rewrite flat_map_app. simpl.
    fold (flatPoints (pairUp front)). rewrite flatPoints_pairUp by done.
    by rewrite <- app_assoc.
  - rewrite pointsArray_pairUp. apply length_pairUp.
Qed.

Lemma X1_witness :
  (exists front a,
     [Some 1%Z; Some 2%Z; Some 3%Z] = front ++ [a] /\
     pointsArray [Some 1%Z; Some 2%Z; Some 3%Z] = pointsArray front ++ [Point.mk a None]) /\
  flatPoints (pointsArray [Some 1%Z; Some 2%Z; Some 3%Z])
  = [Some 1%Z; Some 2%Z; Some 3%Z] ++ [None] /\
  length (pointsArray [Some 1%Z; Some 2%Z; Some 3%Z]) = Nat.div2 (S 3).
Proof.
  apply (X1_pointsArray_odd_length [Some 1%Z; Some 2%Z; Some 3%Z]).
  exists 1. reflexivity.
Defined.

(** ** What is pushed upstream *)

Lemma reachable_inProgress_even st line :
  reachable st -> inProgress st = Some line -> evenLength (Stroke.points line).
Proof.
  intros Hreach Hline. unfold inProgress in Hline.
  destruct (lastLineRef st) as [a|] eqn:Ea; [|done]. injection Hline as <-.
  apply heapEven_deref; [by apply reachable_heapEven|].
  by apply (reachable_wf st Hreach).
Qed.

Lemma formatStroke_persistedRow t line :
  evenLength (Stroke.points line) ->
  formatStroke (persistedRow t (upsertRowOf line)) = Normal line.
Proof.
  intros Hev. unfold formatStroke, persistedRow, upsertRowOf. simpl.
  rewrite pointsArray_pairUp, flatPoints_pairUp by done. by destruct line.
Qed.

(** X2: the push and the feed callback are inverse to each other on the
    builder's stroke.  In a reachable state, the row the store keeps for the
    object a tick or pointer-up sends for the stroke in progress is decoded by
    the feed callback (and by the initial load) of another client into that
    very stroke: same id, colour, thickness and flat points. *)
Theorem X2_push_then_decode_round_trip st line t :
  reachable st ->
  inProgress st = Some line ->
  formatStroke (persistedRow t (upsertRowOf line)) = Normal line /\
  (forall other,
     onInsert (persistedRow t (upsertRowOf line)) other
     = Normal (mergeRemote line other) /\
     fetchStrokes_resume (Some [persistedRow t (upsertRowOf line)]) other
     = Normal (replaceAll [line] other)).
Proof.
  intros Hreach Hline.
  assert (Hfmt : formatStroke (persistedRow t (upsertRowOf line)) = Normal line).
  { apply formatStroke_persistedRow. by eapply reachable_inProgress_even. }
  split; [done|]. intros other. split.
  - unfold onInsert. by rewrite Hfmt.
  - unfold fetchStrokes_resume. cbn [mapC]. by rewrite Hfmt.
Qed.

Lemma X2_witness :
  formatStroke (persistedRow 7%Z (upsertRowOf Sample.strokeA)) = Normal Sample.strokeA /\
  (forall other,
     onInsert (persistedRow 7%Z (upsertRowOf Sample.strokeA)) other
     = Normal (mergeRemote Sample.strokeA other) /\
     fetchStrokes_resume (Some [persistedRow 7%Z (upsertRowOf Sample.strokeA)]) other
     = Normal (replaceAll [Sample.strokeA] other)).
Proof.
  apply (X2_push_then_decode_round_trip Sample.drawing Sample.strokeA 7%Z).
  - exists Sample.gesture. reflexivity.
  - reflexivity.
Defined.

Lemma locallyAuthored_newLineAt p uuid c t : locallyAuthored (newLineAt p uuid c t).
Proof.
  unfold locallyAuthored, newLineAt. simpl. repeat split; try by eexists.
  - repeat constructor; by eexists.
  - apply evenLength_cons2, evenLength_nil.
  - lia.
Qed.

Lemma locallyAuthored_concatPoints px py s :
  locallyAuthored s -> locallyAuthored (concatPoints [Some px; Some py] s).
Proof.
  intros (Hid & Hc & Ht & Hpts & Hev & Hlen). unfold locallyAuthored. simpl.
  repeat split; try done.
  - apply Forall_app. split; [done|]. repeat constructor; by eexists.
  - apply evenLength_app; [done|]. apply evenLength_cons2, evenLength_nil.
  - rewrite length_app. lia.
Qed.

Lemma builderLocal_grow st st' :
  lastLineRef st' = lastLineRef st ->
  (exists more, heap st' = heap st ++ more) ->
  builderLocal st -> builderLocal st'.
Proof.
  intros Href [more Hheap] Hb a Ha. rewrite Href in Ha.
  destruct (Hb a Ha) as (s & Hs & Hloc). exists s. split; [|done].
  rewrite Hheap. by apply lookup_app_l_Some.
Qed.

Lemma builderLocal_step ev st : builderLocal st -> builderLocal (step ev st).
Proof.
  intros Hb. unfold step, handle.
  destruct ev as [pos uuid|pos| |r|payload| |data| | |c|t]; simpl; try done.
  - destruct pos as [[px py]|]; [|done]. intros a. simpl. intros [= <-].
    exists (newLineAt (px, py) uuid (color st) (thickness st)). split.
    + by apply list_lookup_middle.
    + apply locallyAuthored_newLineAt.
  - unfold handlePointerMove. destruct (isDrawing st); simpl; [|done].
    destruct (lastLineRef st) as [a|] eqn:Ea; [|done].
    destruct pos as [[px py]|]; [|done]. intros b. simpl. rewrite Ea. intros [= <-].
    destruct (Hb a Ea) as (s & Hs & Hloc).
    exists (concatPoints [Some px; Some py] s). split.
    + by rewrite list_lookup_alter_eq, Hs.
    + by apply locallyAuthored_concatPoints.
  - unfold handlePointerUp_issue. simpl.
    destruct (lastLineRef st) eqn:Ea; simpl; intros b; simpl; rewrite Ea; intros Hb';
      apply Hb; by rewrite Ea.
  - unfold onInsert. destruct (formatStroke payload) as [s|]; simpl; [|done].
    unfold mergeRemote. destruct (someId st (Stroke.id s)); [done|].
    apply (builderLocal_grow st); [done| |done]. by exists [s].
  - destruct data as [rows|]; simpl; [|done].
    destruct (mapC formatStroke rows) as [formatted|]; simpl; [|done].
    apply (builderLocal_grow st); [done| |done]. by exists formatted.
Qed.

Lemma reachable_builderLocal st : reachable st -> builderLocal st.
Proof.
  revert st. apply reachable_ind; [by intros a|].
  intros ev st _. apply builderLocal_step.
Qed.

Lemma pairUp_all_defined pts :
  evenLength pts -> Forall is_Some pts ->
  Forall (fun p => is_Some (Point.x p) /\ is_Some (Point.y p)) (pairUp pts).
Proof.
  revert pts. apply (even_list_ind (fun pts => Forall is_Some pts ->
    Forall (fun p => is_Some (Point.x p) /\ is_Some (Point.y p)) (pairUp pts))).
  - constructor.
  - intros a b pts _ IH Hall. simpl.
    apply Forall_cons in Hall as [Ha Hall]. apply Forall_cons in Hall as [Hb Hall].
    constructor; [done|]. by apply IH.
Qed.

Lemma wellFormedRow_upsertRowOf s : locallyAuthored s -> wellFormedRow (upsertRowOf s).
Proof.
  intros (Hid & Hc & Ht & Hpts & Hev & Hlen). unfold wellFormedRow, upsertRowOf. simpl.
  rewrite pointsArray_pairUp. repeat split; try done.
  - destruct (Stroke.points s) as [|a [|b rest]]; simpl in *; [lia|lia|done].
  - by apply pairUp_all_defined.
Qed.

(** X3: the component never pushes a malformed row.  In every reachable state,
    whatever event comes next, each upsert it issues (from the flush tick or
    from pointer-up) carries a defined id, colour and thickness and a
    non-empty list of points none of whose coordinates is [undefined]; and it
    is the row of the stroke in progress. *)
Theorem X3_pushed_rows_are_well_formed st ev row :
  reachable st ->
  NetUpsert row ∈ effects ev st ->
  wellFormedRow row /\
  exists line, inProgress st = Some line /\ row = upsertRowOf line.
Proof.
  intros Hreach Hin. pose proof (reachable_builderLocal st Hreach) as Hb.
  assert (Hrow : forall a, lastLineRef st = Some a -> row = upsertRowOf (deref st a) ->
            wellFormedRow row /\
            exists line, inProgress st = Some line /\ row = upsertRowOf line).
  { intros a Ha ->. destruct (Hb a Ha) as (s & Hs & Hloc).
    unfold deref. rewrite (list_lookup_total_correct _ _ _ Hs). split.
    - by apply wellFormedRow_upsertRowOf.
    - exists s. split; [|done]. unfold inProgress, deref. rewrite Ha. simpl.
      by rewrite (list_lookup_total_correct _ _ _ Hs). }
  unfold effects, handle in Hin.
  destruct ev as [pos uuid|pos| |r|payload| |data| | |c|t]; simpl in Hin;
    try (by apply elem_of_nil in Hin).
  - unfold handlePointerUp_issue in Hin. simpl in Hin.
    destruct (lastLineRef st) as [a|] eqn:Ea; [|by apply elem_of_nil in Hin].
    apply list_elem_of_singleton in Hin. injection Hin as ->. by apply (Hrow a).
  - destruct (onInsert payload st); by apply elem_of_nil in Hin.
  - apply list_elem_of_singleton in Hin. discriminate Hin.
  - destruct (fetchStrokes_resume data st); by apply elem_of_nil in Hin.
  - apply list_elem_of_singleton in Hin. discriminate Hin.
  - unfold flushTick in Hin. destruct (isDrawing st); [|by apply elem_of_nil in Hin].
    destruct (lastLineRef st) as [a|] eqn:Ea; [|by apply elem_of_nil in Hin].
    apply list_elem_of_singleton in Hin. injection Hin as ->. by apply (Hrow a).
Qed.

Lemma X3_witness :
  wellFormedRow (upsertRowOf Sample.strokeA) /\
  exists line, inProgress Sample.drawing = Some line /\ upsertRowOf Sample.strokeA = upsertRowOf line.
Proof.
  apply (X3_pushed_rows_are_well_formed Sample.drawing EvTick (upsertRowOf Sample.strokeA)).
  - exists Sample.gesture. reflexivity.
  - vm_compute. apply list_elem_of_here.
Defined.

(** ** Stroke objects over time *)

Lemma heap_step_grows ev st a s :
  heap st !! a = Some s ->
  exists extra,
    heap (step ev st) !! a = Some (concatPoints extra s) /\
    (lastLineRef st <> Some a -> extra = []).
Proof.
  intros Hs.
  assert (Hsame : forall st', (exists more, heap st' = heap st ++ more) ->
            exists extra, heap st' !! a = Some (concatPoints extra s) /\
                          (lastLineRef st <> Some a -> extra = [])).
  { intros st' [more Hh]. exists []. rewrite concatPoints_nil, Hh. split; [|done].
    by apply lookup_app_l_Some. }
  assert (Hrefl : exists more, heap st = heap st ++ more) by (exists []; by rewrite app_nil_r).
  unfold step, handle.
  destruct ev as [pos uuid|pos| |r|payload| |data| | |c|t]; simpl;
    try (by apply Hsame).
  - destruct pos as [[px py]|]; apply Hsame; [|done]. simpl. by eexists.
  - unfold handlePointerMove. destruct (isDrawing st); simpl; [|by apply Hsame].
    destruct (lastLineRef st) as [b|] eqn:Eb; [|by apply Hsame].
    destruct pos as [[px py]|]; [|by apply Hsame]. simpl.
    destruct (decide (b = a)) as [->|Hne].
    + exists [Some px; Some py]. split; [|done]. by rewrite list_lookup_alter_eq, Hs.
    + exists []. rewrite concatPoints_nil, list_lookup_alter_ne by done. done.
  - unfold handlePointerUp_issue. simpl. destruct (lastLineRef st); by apply Hsame.
  - unfold onInsert. destruct (formatStroke payload) as [s'|]; simpl; [|by apply Hsame].
    unfold mergeRemote. destruct (someId st (Stroke.id s')); apply Hsame; [done|].
    simpl. by eexists.
  - destruct data as [rows|]; simpl; [|by apply Hsame].
    destruct (mapC formatStroke rows) as [formatted|]; simpl; [|by apply Hsame].
    apply (Hsame (replaceAll formatted st)). simpl. by eexists.
Qed.

(** X4: a stroke object, once created, keeps its id, colour and thickness for
    the rest of the session, and its points only grow at the end: after any
    sequence of events the object is the old one with coordinates appended.
    A single event leaves every object untouched except the one [lastLineRef]
    refers to. *)
Theorem X4_strokes_only_grow st a s :
  heap st !! a = Some s ->
  (forall ev, lastLineRef st <> Some a -> heap (step ev st) !! a = Some s) /\
  (forall evs, exists extra,
     heap (run evs st) !! a
     = Some (Stroke.mk (Stroke.id s) (Stroke.color s) (Stroke.thickness s)
                       (Stroke.points s ++ extra))).
Proof.
  intros Hs. split.
  - intros ev Hne. destruct (heap_step_grows ev st a s Hs) as (extra & Hlook & Hnil).
    rewrite (Hnil Hne), concatPoints_nil in Hlook. done.
  - intros evs. revert st s Hs. induction evs as [|ev evs IH]; intros st s Hs.
    + exists []. simpl. rewrite Hs, app_nil_r. by destruct s.
    + destruct (heap_step_grows ev st a s Hs) as (extra1 & Hlook & _).
      destruct (IH (step ev st) _ Hlook) as (extra2 & Hrun).
      exists (extra1 ++ extra2). simpl in *. unfold run in *. simpl.
      by rewrite Hrun, app_assoc.
Qed.

Lemma X4_witness :
  (forall ev, lastLineRef (run Sample.interleaved init) <> Some 1 ->
     heap (step ev (run Sample.interleaved init)) !! 1
     = Some (Stroke.mk (Some Sample.idB) (Some "#0000ff"%string) (Some 2%Z)
                       [Some 5%Z; Some 5%Z; Some 6%Z; Some 7%Z])) /\
  (forall evs, exists extra,
     heap (run evs (run Sample.interleaved init)) !! 1
     = Some (Stroke.mk (Some Sample.idB) (Some "#0000ff"%string) (Some 2%Z)
                       ([Some 5%Z; Some 5%Z; Some 6%Z; Some 7%Z] ++ extra))).
Proof.
  apply (X4_strokes_only_grow (run Sample.interleaved init) 1
           (Stroke.mk (Some Sample.idB) (Some "#0000ff"%string) (Some 2%Z)
                      [Some 5%Z; Some 5%Z; Some 6%Z; Some 7%Z])).
  reflexivity.
Defined.

(** ** Sequences of feed events *)

Lemma step_feed_cases payload st :
  step (EvFeedInsert payload) st = st \/
  exists s, formatStroke payload = Normal s /\ step (EvFeedInsert payload) st = mergeRemote s st.
Proof.
  unfold step, handle, onInsert.
  destruct (formatStroke payload) as [s|]; simpl; [|by left].
  right. by exists s.
Qed.

Lemma snapshot_mergeRemote_prefix s st :
  wf st -> snapshot st `prefix_of` snapshot (mergeRemote s st).
Proof.
  intros Hwf. destruct (someId st (Stroke.id s)) eqn:E.
  - by rewrite mergeRemote_present.
  - rewrite snapshot_mergeRemote_absent by done. by apply prefix_app_r.
Qed.

Lemma mergeRemote_gesture s st :
  lastLineRef (mergeRemote s st) = lastLineRef st /\
  isDrawing (mergeRemote s st) = isDrawing st.
Proof. unfold mergeRemote. by destruct (someId st (Stroke.id s)). Qed.

Lemma feed_invariants payloads : forall st,
  wf st ->
  snapshot st `prefix_of` snapshot (feed payloads st) /\
  (NoDup (ids (snapshot st)) -> NoDup (ids (snapshot (feed payloads st)))) /\
  lastLineRef (feed payloads st) = lastLineRef st /\
  isDrawing (feed payloads st) = isDrawing st.
Proof.
  induction payloads as [|p payloads IH]; intros st Hwf; [done|].
  change (feed (p :: payloads) st) with (feed payloads (step (EvFeedInsert p) st)).
  destruct (step_feed_cases p st) as [->|(s & _ & ->)]; [by apply IH|].
  destruct (IH (mergeRemote s st)) as (Hpre & Hnd & Href & Hdraw);
    [by apply wf_mergeRemote|].
  destruct (mergeRemote_gesture s st) as [Href' Hdraw'].
  split; [|split; [|split]].
  - etrans; [by apply snapshot_mergeRemote_prefix|done].
  - intros Hnd0. by apply Hnd, mergeRemote_keeps_ids_unique.
  - by rewrite Href.
  - by rewrite Hdraw.
Qed.

(** X5: feed events only ever add at the end.  From a reachable state, after
    any sequence of feed events the old snapshot is a prefix of the new one
    (no entry is removed, replaced or moved), ids that were pairwise distinct
    stay so, and the gesture in progress is not touched. *)
Theorem X5_feed_only_appends st payloads :
  reachable st ->
  snapshot st `prefix_of` snapshot (feed payloads st) /\
  (NoDup (ids (snapshot st)) -> NoDup (ids (snapshot (feed payloads st)))) /\
  lastLineRef (feed payloads st) = lastLineRef st /\
  isDrawing (feed payloads st) = isDrawing st.
Proof. intros Hreach. by apply feed_invariants, reachable_wf. Qed.

Lemma X5_witness :
  snapshot Sample.drawing
    `prefix_of` snapshot (feed [Sample.remoteB; Sample.echoA; Sample.noPoints] Sample.drawing) /\
  (NoDup (ids (snapshot Sample.drawing)) ->
   NoDup (ids (snapshot (feed [Sample.remoteB; Sample.echoA; Sample.noPoints] Sample.drawing)))) /\
  lastLineRef (feed [Sample.remoteB; Sample.echoA; Sample.noPoints] Sample.drawing)
  = lastLineRef Sample.drawing /\
  isDrawing (feed [Sample.remoteB; Sample.echoA; Sample.noPoints] Sample.drawing)
  = isDrawing Sample.drawing.
Proof.
  apply (X5_feed_only_appends Sample.drawing [Sample.remoteB; Sample.echoA; Sample.noPoints]).
  exists Sample.gesture. reflexivity.
Defined.

(** X6: the first feed event for an id wins.  A later feed event with the
    same id is ignored whatever colour, thickness or points it carries, so
    the stroke shown stays the one the first event carried. *)
Theorem X6_first_event_for_an_id_wins st S1 S2 :
  Stroke.id S1 = Stroke.id S2 ->
  mergeRemote S2 (mergeRemote S1 st) = mergeRemote S1 st /\
  (forall p1 p2, formatStroke p1 = Normal S1 -> formatStroke p2 = Normal S2 ->
     feed [p1; p2] st = feed [p1] st).
Proof.
  intros Hid.
  assert (Hmerge : mergeRemote S2 (mergeRemote S1 st) = mergeRemote S1 st).
  { apply mergeRemote_present. rewrite <- Hid. apply someId_mergeRemote. }
  split; [done|]. intros p1 p2 H1 H2.
  unfold feed, run, step, handle, onInsert. simpl. rewrite H1. simpl. rewrite H2. simpl.
  done.
Qed.

Lemma X6_witness :
  feed [Sample.remoteB; Sample.noColor] init = feed [Sample.remoteB] init.
Proof.
  destruct (X6_first_event_for_an_id_wins init
              (Stroke.mk (Some Sample.idB) (Some "#0000ff"%string) (Some 2%Z)
                         [Some 5%Z; Some 5%Z; Some 6%Z; Some 7%Z])
              (Stroke.mk (Some Sample.idB) None (Some 2%Z)
                         [Some 5%Z; Some 5%Z; Some 6%Z; Some 7%Z]) eq_refl) as [_ Hfeed].
  apply (Hfeed Sample.remoteB Sample.noColor); reflexivity.
Defined.

(** ** Pushes during a gesture *)

Lemma appendPoints_deref ps : forall st a,
  isDrawing st = true -> lastLineRef st = Some a -> a < length (heap st) ->
  deref (appendPoints ps st) a = concatPoints (flatCoords ps) (deref st a).
Proof.
  induction ps as [|p ps IH]; intros st a Hd Hr Ha.
  - simpl. by rewrite concatPoints_nil.
  - destruct (handlePointerMove_active st a p Hd Hr Ha) as (Hp & Hd' & Hr' & Hlen).
    change (appendPoints (p :: ps) st) with (appendPoints ps (handlePointerMove (Some p) st)).
    rewrite IH by (try done; by rewrite Hlen).
    rewrite Hp. apply concatPoints_concatPoints.
Qed.

Lemma upsertRowOf_concatPoints ps line :
  evenLength (Stroke.points line) ->
  upsertRowOf (concatPoints (flatCoords ps) line)
  = UpsertRow.mk (Stroke.id line) (Stroke.color line) (Stroke.thickness line)
                 (pointsArray (Stroke.points line) ++ (toPoint <$> ps)).
Proof.
  intros Hev. unfold upsertRowOf. simpl.
  by rewrite !pointsArray_pairUp, pairUp_app_even, pairUp_flatCoords.
Qed.

(** X7: pushes of one gesture grow monotonically.  In a reachable state with
    a stroke in progress, after any further pointer-moves the row a flush tick
    sends has the same id, colour and thickness as the row a tick would have
    sent before them, and its points are that row's points followed by one
    record per move, in order; the push issued by pointer-up at that moment is
    the same row. *)
Theorem X7_pushed_rows_extend_earlier_ones st a ps :
  reachable st -> isDrawing st = true -> lastLineRef st = Some a ->
  flushTick st = [NetUpsert (upsertRowOf (deref st a))] /\
  flushTick (appendPoints ps st)
  = [NetUpsert (UpsertRow.mk (UpsertRow.id (upsertRowOf (deref st a)))
                             (UpsertRow.color (upsertRowOf (deref st a)))
                             (UpsertRow.thickness (upsertRowOf (deref st a)))
                             (UpsertRow.points (upsertRowOf (deref st a)) ++ (toPoint <$> ps)))] /\
  snd (handlePointerUp_issue (appendPoints ps st)) = flushTick (appendPoints ps st).
Proof.
  intros Hreach Hd Hr.
  assert (Ha : a < length (heap st)) by (by apply (reachable_wf st Hreach)).
  assert (Hev : evenLength (Stroke.points (deref st a))).
  { apply heapEven_deref; [by apply reachable_heapEven|done]. }
  destruct (appendPoints_active ps st a Hd Hr Ha) as (_ & Hd' & Hr').
  pose proof (appendPoints_deref ps st a Hd Hr Ha) as Hderef.
  split; [|split].
  - unfold flushTick. by rewrite Hd, Hr.
  - unfold flushTick. rewrite Hd', Hr', Hderef. by rewrite upsertRowOf_concatPoints.
  - unfold handlePointerUp_issue, flushTick. simpl. by rewrite Hd', Hr'.
Qed.

Lemma X7_witness :
  flushTick (appendPoints [(2, 2)%Z; (3, 5)%Z] Sample.drawing)
  = [NetUpsert (UpsertRow.mk (Some Sample.idA) (Some "#ff0000"%string) (Some 4%Z)
                             ([Sample.pt 0 0; Sample.pt 1 1] ++ [Sample.pt 2 2; Sample.pt 3 5]))].
Proof.
  assert (Hreach : reachable Sample.drawing) by (exists Sample.gesture; reflexivity).
  destruct (X7_pushed_rows_extend_earlier_ones Sample.drawing 0 [(2, 2)%Z; (3, 5)%Z]
              Hreach eq_refl eq_refl) as (_ & Htick & _).
  exact Htick.
Defined.

(** ** Pointer-down and its neighbours *)

Lemma snapshot_ext st st' :
  heap st' = heap st -> lines st' = lines st -> snapshot st' = snapshot st.
Proof. unfold snapshot, deref. by intros -> ->. Qed.

Lemma snapshot_handlePointerDown p uuid st :
  wf st ->
  snapshot (handlePointerDown (Some p) uuid st)
  = snapshot st ++ [newLineAt p uuid (color st) (thickness st)].
Proof.
  intros [Hl _]. destruct p as [px py]. unfold snapshot, deref. simpl.
  rewrite fmap_app. simpl. rewrite list_lookup_total_middle by done. f_equal.
  apply Forall_fmap_ext_1. eapply Forall_impl; [done|].
  intros a Ha. simpl in *. by rewrite lookup_total_app_l.
Qed.

Lemma inProgress_handlePointerDown p uuid st :
  inProgress (handlePointerDown (Some p) uuid st)
  = Some (newLineAt p uuid (color st) (thickness st)).
Proof.
  destruct p as [px py]. unfold inProgress, deref. simpl.
  by rewrite list_lookup_total_middle.
Qed.

(** X8: pointer-down with a position always opens a new stroke at the end of
    the collection, whether or not another one was in progress: in a
    reachable state the snapshot becomes the old one followed by a stroke
    with the given id, the single point, and the colour and thickness chosen
    last in the pickers (the thickness as given, whatever its value); that
    stroke becomes the one in progress and drawing is active. *)
Theorem X8_pointer_down_opens_a_stroke st p uuid c t :
  reachable st ->
  snapshot (handlePointerDown (Some p) uuid (setThickness t (setColor c st)))
  = snapshot st ++ [newLineAt p uuid c t] /\
  inProgress (handlePointerDown (Some p) uuid (setThickness t (setColor c st)))
  = Some (newLineAt p uuid c t) /\
  isDrawing (handlePointerDown (Some p) uuid (setThickness t (setColor c st))) = true /\
  pointCount (handlePointerDown (Some p) uuid (setThickness t (setColor c st))) = 1.
Proof.
  intros Hreach.
  assert (Hwf : wf (setThickness t (setColor c st))).
  { apply (wf_ext st); try done. by apply reachable_wf. }
  split; [|split; [|split]].
  - rewrite snapshot_handlePointerDown by done. f_equal.
  - apply inProgress_handlePointerDown.
  - by destruct p.
  - unfold pointCount. by rewrite inProgress_handlePointerDown.
Qed.

Lemma X8_witness :
  snapshot (handlePointerDown (Some (9, 9)%Z) Sample.idB
              (setThickness 25%Z (setColor "#00ff00"%string Sample.drawing)))
  = snapshot Sample.drawing ++ [newLineAt (9, 9)%Z Sample.idB "#00ff00"%string 25%Z].
Proof.
  assert (Hreach : reachable Sample.drawing) by (exists Sample.gesture; reflexivity).
  apply (X8_pointer_down_opens_a_stroke Sample.drawing (9, 9)%Z Sample.idB
           "#00ff00"%string 25%Z Hreach).
Defined.

(** X9: a stroke begun before the previous release has settled is orphaned.
    When pointer-up has issued its upsert for a stroke and a new pointer-down
    arrives before that upsert resolves, the resolution sets [lastLineRef] to
    [null] although the new stroke is in progress.  The new stroke stays in
    the snapshot with its first point, drawing stays flagged active, and from
    then on pointer-moves change nothing, flush ticks push nothing and the
    next pointer-up pushes nothing: the new stroke is not sent upstream by any
    later event of its gesture. *)
Theorem X9_down_before_settled_orphans_the_stroke st a r p uuid :
  reachable st -> lastLineRef st = Some a ->
  snapshot (downBeforeSettled r p uuid st)
  = snapshot st ++ [newLineAt p uuid (color st) (thickness st)] /\
  isDrawing (downBeforeSettled r p uuid st) = true /\
  lastLineRef (downBeforeSettled r p uuid st) = None /\
  (forall pos, handlePointerMove pos (downBeforeSettled r p uuid st)
               = downBeforeSettled r p uuid st) /\
  flushTick (downBeforeSettled r p uuid st) = [] /\
  snd (handlePointerUp_issue (downBeforeSettled r p uuid st)) = [].
Proof.
  intros Hreach Ha. pose proof (reachable_wf st Hreach) as Hwf.
  assert (Hissue : fst (handlePointerUp_issue st) = setIsDrawing false st).
  { unfold handlePointerUp_issue. simpl. by rewrite Ha. }
  assert (Hwf1 : wf (setIsDrawing false st)) by (by apply (wf_ext st)).
  unfold downBeforeSettled. rewrite Hissue.
  split; [|split; [|split; [|split; [|split]]]].
  - unfold handlePointerUp_resume. simpl.
    rewrite (snapshot_ext (handlePointerDown (Some p) uuid (setIsDrawing false st))) by done.
    by rewrite snapshot_handlePointerDown.
  - by destruct p.
  - done.
  - intros pos. apply handlePointerMove_idle. by right.
  - unfold flushTick. simpl. by destruct p.
  - done.
Qed.

Lemma X9_witness :
  flushTick (downBeforeSettled Resolved (9, 9)%Z Sample.idB Sample.drawing) = [] /\
  snd (handlePointerUp_issue (downBeforeSettled Resolved (9, 9)%Z Sample.idB Sample.drawing)) = [].
Proof.
  assert (Hreach : reachable Sample.drawing) by (exists Sample.gesture; reflexivity).
  destruct (X9_down_before_settled_orphans_the_stroke Sample.drawing 0 Resolved
              (9, 9)%Z Sample.idB Hreach eq_refl) as (_ & _ & _ & _ & Htick & Hup).
  by split.
Defined.

(** X10: the clear command does not end a gesture.  In a reachable state with
    a stroke in progress, clearing empties the snapshot but leaves the drawing
    flag, the reference and the flush pushes as they were; the next
    pointer-move then makes the stroke in progress, with the new point
    appended, the only entry of the snapshot. *)
Theorem X10_clear_during_gesture st a p :
  reachable st -> isDrawing st = true -> lastLineRef st = Some a ->
  snapshot (fst (clearCanvas st)) = [] /\
  isDrawing (fst (clearCanvas st)) = true /\
  lastLineRef (fst (clearCanvas st)) = Some a /\
  flushTick (fst (clearCanvas st)) = flushTick st /\
  snapshot (handlePointerMove (Some p) (fst (clearCanvas st)))
  = [concatPoints [Some (fst p); Some (snd p)] (deref st a)].
Proof.
  intros Hreach Hd Hr.
  assert (Ha : a < length (heap st)) by (by apply (reachable_wf st Hreach)).
  split; [done|]. split; [done|]. split; [done|]. split; [done|].
  destruct (handlePointerMove_active (fst (clearCanvas st)) a p Hd Hr Ha) as (Hp & _).
  assert (Hlines : lines (handlePointerMove (Some p) (fst (clearCanvas st))) = [a]).
  { unfold handlePointerMove. simpl. rewrite Hd, Hr. by destruct p. }
  change (deref (fst (clearCanvas st)) a) with (deref st a) in Hp.
  rewrite <- Hp. unfold snapshot. by rewrite Hlines.
Qed.

Lemma X10_witness :
  snapshot (handlePointerMove (Some (2, 3)%Z) (fst (clearCanvas Sample.drawing)))
  = [concatPoints [Some 2%Z; Some 3%Z] (deref Sample.drawing 0)].
Proof.
  assert (Hreach : reachable Sample.drawing) by (exists Sample.gesture; reflexivity).
  destruct (X10_clear_during_gesture Sample.drawing 0 (2, 3)%Z Hreach eq_refl eq_refl)
    as (_ & _ & _ & _ & Hsnap).
  exact Hsnap.
Defined.

(** ** The initial load against whatever came before *)

Lemma mapC_Normal_all_points rows formatted :
  mapC formatStroke rows = Normal formatted ->
  forall row, row ∈ rows -> is_Some (SupabaseStroke.points row).
Proof.
  intros Hmap row Hrow.
  destruct (SupabaseStroke.points row) as [ps|] eqn:Eps; [by eexists|].
  assert (Hthrow : formatStroke row = Throw TypeError).
  { unfold formatStroke. by rewrite Eps. }
  destruct (mapC_throw formatStroke rows row TypeError Hrow Hthrow) as [e He].
  congruence.
Qed.

(** X11: a load response replaces the collection wholesale.  When the handler
    completes on a response, every row of the response had its [points]; the
    new snapshot is the formatted rows and nothing else, so it is the same
    whatever the collection held before (strokes drawn or received from the
    feed before the response arrived are shown afterwards only if the response
    has them), and the same handler completes on that response in every other
    state; the drawing flag and the stroke in progress are left as they
    were. *)
Theorem X11_load_replaces_the_collection rows st st' :
  reachable st ->
  fetchStrokes_resume (Some rows) st = Normal st' ->
  (forall row, row ∈ rows -> is_Some (SupabaseStroke.points row)) /\
  mapC formatStroke rows = Normal (snapshot st') /\
  Forall2 matchesRow rows (snapshot st') /\
  (forall other, exists other',
     fetchStrokes_resume (Some rows) other = Normal other' /\
     snapshot other' = snapshot st') /\
  isDrawing st' = isDrawing st /\
  inProgress st' = inProgress st.
Proof.
  intros Hreach. pose proof (reachable_wf st Hreach) as [_ Href].
  unfold fetchStrokes_resume.
  destruct (mapC formatStroke rows) as [formatted|] eqn:Emap; simpl; [|done].
  intros [= <-]. rewrite snapshot_replaceAll.
  pose proof (mapC_Normal_all_points rows formatted Emap) as Hall.
  split; [done|]. split; [done|]. split; [|split; [|split]].
  - destruct (mapC_formatStroke rows Hall) as (formatted' & Hmap' & Hmatch). congruence.
  - intros other. exists (replaceAll formatted other). by rewrite snapshot_replaceAll.
  - done.
  - unfold inProgress, deref. simpl. destruct (lastLineRef st) as [a|] eqn:Ea; [|done].
    simpl. f_equal. rewrite lookup_total_app_l; [done|]. by apply Href.
Qed.

Lemma X11_witness :
  snapshot (step (EvLoaded (Some [Sample.remoteB])) Sample.drawing)
  = snapshot (step (EvLoaded (Some [Sample.remoteB])) init) /\
  inProgress (step (EvLoaded (Some [Sample.remoteB])) Sample.drawing)
  = inProgress Sample.drawing.
Proof.
  assert (Hreach : reachable Sample.drawing) by (exists Sample.gesture; reflexivity).
  destruct (X11_load_replaces_the_collection [Sample.remoteB] Sample.drawing
              (step (EvLoaded (Some [Sample.remoteB])) Sample.drawing) Hreach eq_refl)
    as (_ & _ & _ & Hother & _ & Hprog).
  split; [|exact Hprog].
  destruct (Hother init) as (other' & Hload & Hsnap).
  vm_compute in Hload. injection Hload as <-. symmetry. exact Hsnap.
Defined.

(** ** A whole gesture *)

Lemma handlePointerUp_active r st a :
  lastLineRef st = Some a ->
  handlePointerUp r st
  = (setLastLineRef None (setIsDrawing false st), [NetUpsert (upsertRowOf (deref st a))]).
Proof.
  intros Ha. unfold handlePointerUp, handlePointerUp_issue, handlePointerUp_resume.
  destruct st as [h l d c t ref]. simpl in *. by subst ref.
Qed.

Lemma not_someId_not_in_ids st i :
  someId st i = false -> i ∉ ids (snapshot st).
Proof.
  intros Habsent Hin. unfold ids in Hin.
  apply list_elem_of_fmap in Hin as (s & -> & Hs).
  assert (someId st (Stroke.id s) = true) as Hyes; [|congruence].
  apply someId_true. by exists s.
Qed.

(** X12: a gesture that no other event interrupts.  From a reachable state,
    pointer-down at [p] followed by pointer-moves at [ps] leaves the old
    snapshot followed by one stroke with the chosen colour and thickness whose
    flat points are the coordinates of [p] and [ps] in order; pointer-up then
    issues exactly one upsert, carrying that id, colour and thickness and one
    [{x, y}] record per position, leaves the snapshot as it is and ends the
    gesture.  If the id was not in the collection and the ids were pairwise
    distinct before, they still are. *)
Theorem X12_uninterrupted_gesture st p ps uuid r :
  reachable st ->
  snapshot (appendPoints ps (handlePointerDown (Some p) uuid st))
  = snapshot st ++
    [Stroke.mk (Some uuid) (Some (color st)) (Some (thickness st)) (flatCoords (p :: ps))] /\
  snd (handlePointerUp r (appendPoints ps (handlePointerDown (Some p) uuid st)))
  = [NetUpsert (UpsertRow.mk (Some uuid) (Some (color st)) (Some (thickness st))
                             (toPoint <$> p :: ps))] /\
  snapshot (fst (handlePointerUp r (appendPoints ps (handlePointerDown (Some p) uuid st))))
  = snapshot (appendPoints ps (handlePointerDown (Some p) uuid st)) /\
  lastLineRef (fst (handlePointerUp r (appendPoints ps (handlePointerDown (Some p) uuid st))))
  = None /\
  isDrawing (fst (handlePointerUp r (appendPoints ps (handlePointerDown (Some p) uuid st))))
  = false /\
  (someId st (Some uuid) = false -> NoDup (ids (snapshot st)) ->
   NoDup (ids (snapshot (appendPoints ps (handlePointerDown (Some p) uuid st))))).
Proof.
  intros Hreach. pose proof (reachable_wf st Hreach) as [Hlines _].
  set (st0 := handlePointerDown (Some p) uuid st).
  set (line := newLineAt p uuid (color st) (thickness st)).
  assert (Hh0 : heap st0 = heap st ++ [line]) by (by destruct p).
  assert (Hl0 : lines st0 = lines st ++ [length (heap st)]) by (by destruct p).
  assert (Hd0 : isDrawing st0 = true) by (by destruct p).
  assert (Hr0 : lastLineRef st0 = Some (length (heap st))) by (by destruct p).
  assert (Ha0 : length (heap st) < length (heap st0)).
  { rewrite Hh0, length_app. simpl. lia. }
  destruct (appendPoints_uninterrupted ps st0 (heap st) line (lines st) Hh0 Hl0 Hd0 Hr0)
    as [Hh Hl].
  destruct (appendPoints_active ps st0 (length (heap st)) Hd0 Hr0 Ha0) as (_ & Hd & Hr).
  assert (Hsnap : snapshot (appendPoints ps st0)
                  = snapshot st ++ [concatPoints (flatCoords ps) line]).
  { unfold snapshot, deref. rewrite Hh, Hl, fmap_app. simpl.
    rewrite list_lookup_total_middle by done. f_equal.
    apply Forall_fmap_ext_1. eapply Forall_impl; [done|].
    intros a Ha. simpl in *. by rewrite lookup_total_app_l. }
  rewrite (handlePointerUp_active r _ _ Hr). simpl.
  split; [done|]. split; [|split; [|split; [|split]]]; try done.
  - unfold deref. rewrite Hh, list_lookup_total_middle by done.
    rewrite upsertRowOf_concatPoints by apply evenLength_cons2, evenLength_nil.
    done.
  - intros Hfresh Hnd. rewrite Hsnap. unfold ids in *. rewrite fmap_app. simpl.
    apply NoDup_app. split; [done|]. split; [|apply NoDup_singleton].
    intros i Hi Hi'. apply list_elem_of_singleton in Hi' as ->.
    by apply (not_someId_not_in_ids st (Some uuid) Hfresh).
Qed.

Lemma X12_witness :
  snd (handlePointerUp TransportError
         (appendPoints [(1, 1)%Z; (2, 4)%Z] (handlePointerDown (Some (0, 0)%Z) Sample.idB Sample.drawing)))
  = [NetUpsert (UpsertRow.mk (Some Sample.idB) (Some "#ff0000"%string) (Some 4%Z)
                             [Sample.pt 0 0; Sample.pt 1 1; Sample.pt 2 4])].
Proof.
  assert (Hreach : reachable Sample.drawing) by (exists Sample.gesture; reflexivity).
  destruct (X12_uninterrupted_gesture Sample.drawing (0, 0)%Z [(1, 1)%Z; (2, 4)%Z]
              Sample.idB TransportError Hreach) as (_ & Hup & _).
  exact Hup.
Defined.

(** ** When ids stay pairwise distinct *)

Lemma mapC_formatStroke_ids rows : forall formatted,
  mapC formatStroke rows = Normal formatted ->
  ids formatted = SupabaseStroke.id <$> rows.
Proof.
  induction rows as [|row rows IH]; intros formatted; simpl.
  - by intros [= <-].
  - unfold formatStroke at 1. destruct (SupabaseStroke.points row) as [ps|]; simpl; [|done].
    destruct (mapC formatStroke rows) as [formatted'|]; simpl; [|done].
    intros [= <-]. unfold ids in *. simpl. f_equal. by apply IH.
Qed.

Lemma ids_snapshot_handlePointerMove_last p st a :
  wf st -> isDrawing st = true -> lastLineRef st = Some a ->
  last (lines st) = Some a ->
  ids (snapshot (handlePointerMove (Some p) st)) = ids (snapshot st).
Proof.
  intros [Hl Hr] Hd Ha Hlast. apply last_Some in Hlast as [l' Hl'].
  unfold handlePointerMove. rewrite Hd, Ha. destruct p as [px py]. simpl.
  unfold ids, snapshot, deref. simpl. rewrite Hl'.
  replace (sliceInit (l' ++ [a])) with l'.
  2:{ unfold sliceInit. symmetry. apply take_app_length'. rewrite length_app. simpl. lia. }
  rewrite <- !list_fmap_compose. apply list_fmap_ext. intros i b Hb. simpl.
  rewrite list_lookup_total_alter. case_decide as Hdec; [|done].
  destruct Hdec as [<- _]. done.
Qed.

(** X13: when the ids of the snapshot stay pairwise distinct.  In a reachable
    state whose snapshot has no id twice, the next event keeps it so provided
    that a pointer-down brings an id the collection does not hold, a load
    response has no id twice, and a pointer-move finds the stroke in progress
    as the last entry of the collection; every other event keeps it so
    unconditionally. *)
Theorem X13_ids_stay_distinct st ev :
  reachable st ->
  NoDup (ids (snapshot st)) ->
  keepsIdsApart ev st ->
  NoDup (ids (snapshot (step ev st))).
Proof.
  intros Hreach Hnd Hok. pose proof (reachable_wf st Hreach) as Hwf.
  unfold step, handle.
  destruct ev as [pos uuid|pos| |r|payload| |data| | |c|t]; simpl; try done.
  - destruct pos as [p|]; [|done]. simpl in Hok.
    rewrite snapshot_handlePointerDown by done. unfold ids in *. rewrite fmap_app. simpl.
    apply NoDup_app. split; [done|]. split; [|apply NoDup_singleton].
    intros i Hi Hi'. apply list_elem_of_singleton in Hi' as ->.
    by apply (not_someId_not_in_ids st (Some uuid) Hok).
  - destruct pos as [p|]; simpl in Hok.
    + destruct (isDrawing st) eqn:Hd.
      * destruct (lastLineRef st) as [a|] eqn:Ha.
        -- rewrite ids_snapshot_handlePointerMove_last with (a := a); try done.
           by apply Hok.
        -- by rewrite handlePointerMove_idle by (by right).
      * by rewrite handlePointerMove_idle by (by left).
    + unfold handlePointerMove. destruct (negb (isDrawing st)); [done|].
      by destruct (lastLineRef st).
  - unfold handlePointerUp_issue. simpl. by destruct (lastLineRef st).
  - unfold onInsert. destruct (formatStroke payload) as [s|]; simpl; [|done].
    by apply mergeRemote_keeps_ids_unique.
  - destruct data as [rows|]; simpl; [|done]. simpl in Hok.
    destruct (mapC formatStroke rows) as [formatted|] eqn:Emap; simpl; [|done].
    rewrite snapshot_replaceAll. by rewrite (mapC_formatStroke_ids rows formatted Emap).
  - apply NoDup_nil_2.
Qed.

Lemma X13_witness :
  NoDup (ids (snapshot (step (EvPointerMove (Some (2, 2)%Z)) Sample.drawing))).
Proof.
  apply (X13_ids_stay_distinct Sample.drawing (EvPointerMove (Some (2, 2)%Z))).
  - exists Sample.gesture. reflexivity.
  - vm_compute. apply NoDup_singleton.
  - intros _ a Ha. vm_compute in Ha. injection Ha as <-. reflexivity.
Defined.

(** ** After the release *)

Lemma lateEvent_idle ev st :
  isDrawing st = false -> lastLineRef st = None -> lateEvent ev = true ->
  step ev st = st /\ effects ev st = [].
Proof.
  intros Hd Hr Hlate. destruct st as [h l d c t ref]. simpl in *. subst d ref.
  destruct ev; try discriminate Hlate; by split.
Qed.

(** X14: once a gesture is over nothing it left behind can act.  In a state
    with drawing inactive and no stroke in progress (such as the state right
    after a completed pointer-up), any sequence of pointer-moves, further
    pointer-ups, settlements of earlier pushes and flush ticks leaves the
    state exactly as it is and sends nothing. *)
Theorem X14_late_events_do_nothing st evs :
  isDrawing st = false -> lastLineRef st = None ->
  forallb lateEvent evs = true ->
  run evs st = st /\ trace evs st = [].
Proof.
  intros Hd Hr. induction evs as [|ev evs IH]; intros Hlate; [done|].
  simpl in Hlate. apply andb_true_iff in Hlate as [Hev Hevs].
  destruct (lateEvent_idle ev st Hd Hr Hev) as [Hstep Heff].
  destruct (IH Hevs) as [Hrun Htrace].
  unfold run in *. simpl. rewrite Hstep, Heff. by split.
Qed.

Lemma X14_witness :
  run [EvPointerMove (Some (5, 5)%Z); EvTick; EvPointerUp; EvPointerUpSettled TransportError]
      (fst (handlePointerUp Resolved Sample.drawing))
  = fst (handlePointerUp Resolved Sample.drawing) /\
  trace [EvPointerMove (Some (5, 5)%Z); EvTick; EvPointerUp; EvPointerUpSettled TransportError]
        (fst (handlePointerUp Resolved Sample.drawing))
  = [].
Proof.
  apply (X14_late_events_do_nothing (fst (handlePointerUp Resolved Sample.drawing))
           [EvPointerMove (Some (5, 5)%Z); EvTick; EvPointerUp;
            EvPointerUpSettled TransportError]); reflexivity.
Defined.
